(** * Gann time cycle analyzer: scaling, projection and cluster detection

    A shallow embedding of the computational core of [streamlit_app.py]:
    the price scaler [scale_price], the loop that computes the projected
    cycle dates, the sort of the resulting table, and the two cluster
    detection loops; then the guards that stop the script, the swings
    as the form builds them, and what is shown of the table (the
    truncated table, the clustered rows, the closing summary).

    Conventions of the embedding.
    - A Python [float] is read as a real number ([R]) and the four
      arithmetic operations as exact; [round] is rounding to the
      nearest integer, halves going to the even neighbour.
    - [np.sin] is platform code that returns binary64 approximations:
      the development is parametric in it and assumes only the facts
      collected in [np_sin_contract].  [np.deg2rad x] is
      [x * (PI / 180)].
    - A [datetime] at midnight is its proleptic Gregorian ordinal (the
      value of [toordinal()]), between 1 and 3652059 (years 1 to 9999);
      adding a [timedelta] raises [OverflowError] when the result leaves
      that range, and [(a - b).days] is the difference of the ordinals.
    - [df.sort_values] is library code: the script as a whole is
      parametric in it and assumes only its contract
      (see [sort_values_contract]); where the order of rows of equal
      date is at stake, its default kind is taken as numpy's introsort
      on the column of dates (see [aquicksort]). *)

From Stdlib Require Import Reals Lra Lia ZArith String Bool List.
From Stdlib Require Import Permutation Sorted.
Import ListNotations.

Open Scope R_scope.

(** Sequencing of steps that may raise. *)
Notation "x <- c ;; k" :=
  (match c with Some x => k | None => None end)
  (at level 61, c at next level, right associativity).

(** ** Calendar dates as ordinals (CPython [datetime]) *)

Definition is_leap (year : Z) : bool :=
  ((year mod 4 =? 0) && (negb (year mod 100 =? 0) || (year mod 400 =? 0)))%Z.

Definition days_before_year (year : Z) : Z :=
  (let y := year - 1 in y * 365 + y / 4 - y / 100 + y / 400)%Z.

Definition DAYS_BEFORE_MONTH : list Z :=
  [-1; 0; 31; 59; 90; 120; 151; 181; 212; 243; 273; 304; 334]%Z.

Definition days_before_month (year month : Z) : Z :=
  (nth (Z.to_nat month) DAYS_BEFORE_MONTH 0
   + (if (2 <? month) && is_leap year then 1 else 0))%Z.

Definition ymd2ord (year month day : Z) : Z :=
  (days_before_year year + days_before_month year month + day)%Z.

(** [date.max.toordinal()], the ordinal of 9999-12-31. *)
Definition MAXORDINAL : Z := 3652059.

Definition in_date_range (ordinal : Z) : bool :=
  ((1 <=? ordinal) && (ordinal <=? MAXORDINAL))%Z.

(** A [datetime] value at midnight: an ordinal within the range. *)
Record datetime : Type := mkDatetime {
  toordinal : Z;
  toordinal_range : in_date_range toordinal = true
}.

(** [timedelta(days=n)]: raises [OverflowError] when the magnitude of
    [n] exceeds 999999999. *)
Definition timedelta (days : Z) : option Z :=
  if (Z.abs days <=? 999999999)%Z then Some days else None.

(** [d + delta]: raises [OverflowError] ("date value out of range")
    when the result is not a date of the years 1 to 9999.  The result
    is kept as its ordinal. *)
Definition datetime_add (d : datetime) (delta : Z) : option Z :=
  let ordinal := (toordinal d + delta)%Z in
  if in_date_range ordinal then Some ordinal else None.

(** ** Data model *)

(** One entry of [swings]: [{"name": ..., "price": ..., "date": ...}].
    The loop tests [price is None], so the price is optional. *)
Record swing : Type := mkSwing {
  name : string;
  price : option R;
  date : datetime
}.

(** One dictionary appended to [rows]; the keys of the source are
    "Swing", "Price", "Scaled Price", "Divisor", "Angle°", "Days" and
    "Cycle Date". *)
Record row : Type := mkRow {
  Swing : string;
  Price : R;
  Scaled_Price : R;
  Divisor : Z;
  Angle : R;
  Days : Z;
  Cycle_Date : Z
}.

(** A row of [df] after the columns "Cluster" and "Cluster Count" have
    been assigned. *)
Record arow : Type := mkARow {
  projection : row;
  Cluster : string;
  Cluster_Count : Z
}.

(** ** Numeric primitives *)

(** [round(x)]: nearest integer, ties to even. *)
Definition py_round (x : R) : Z :=
  let f := Int_part x in
  let r := x - IZR f in
  if Rlt_dec r (1 / 2) then f
  else if Rlt_dec (1 / 2) r then (f + 1)%Z
  else if Z.even f then f else (f + 1)%Z.

(** [round(x, ndigits)] for a non-negative number of digits. *)
Definition py_round_ndigits (x : R) (ndigits : nat) : R :=
  IZR (py_round (x * 10 ^ ndigits)) / 10 ^ ndigits.

(** [np.deg2rad]. *)
Definition deg2rad (x : R) : R := x * (PI / 180).

(** ** Custom scaling logic *)

Definition scale_price (price : R) : R * Z :=
  let d :=
    if Rge_dec price 100000 then 3000%Z
    else if Rge_dec price 25000 then 500%Z
    else if Rge_dec price 10000 then 100%Z
    else if Rge_dec price 1000 then 10%Z
    else if Rge_dec price 500 then 2%Z
    else 1%Z in
  (price / IZR d, d).

(** ** The form *)

(** The angles offered by the selection box, and the selection shown
    when "Select All Angles" is not ticked. *)
Definition all_gann_angles : list Z :=
  [15; 21; 28; 30; 45; 49; 55; 60; 72; 81; 90; 99; 120; 144; 180]%Z.

Definition default_angles : list Z := [15; 21; 28; 30; 45; 55; 60]%Z.

(** [swings] as the three expanders fill it: each block appends its
    swing, with [float(p)] as price, whatever the user entered. *)
Definition form_swings (p1 : R) (d1 : datetime) (p2 : R) (d2 : datetime)
  (p3 : R) (d3 : datetime) : list swing :=
  ([] ++ [ {| name := "Swing 1"; price := Some p1; date := d1 |} ])
     ++ [ {| name := "Swing 2"; price := Some p2; date := d2 |} ]
     ++ [ {| name := "Swing 3"; price := Some p3; date := d3 |} ].

(** ** The sine of the platform *)

(** [np.sin(np.deg2rad(180))] in binary64: 1.2246467991473532e-16,
    that is 4967757600021511 / 2^105, and not 0. *)
Definition sin_pi_64 : R := 4967757600021511 / 40564819207303340847894502572032.

(** What is assumed of [np.sin]: its values lie between -1 and 1; it
    is exact at the radians of 0 and 90 degrees; at the radians of 180
    degrees it returns [sin_pi_64]; and it is not negative at the
    radians of the offered angles. *)
Record np_sin_contract (np_sin : R -> R) : Prop := {
  np_sin_bounded : forall x, -1 <= np_sin x <= 1;
  np_sin_0 : np_sin (deg2rad 0) = 0;
  np_sin_90 : np_sin (deg2rad 90) = 1;
  np_sin_180 : np_sin (deg2rad 180) = sin_pi_64;
  np_sin_offered :
    forall a, In a all_gann_angles -> 0 <= np_sin (deg2rad (IZR a))
}.

(** The binary64 values of [np.sin(np.deg2rad(a))] for 0 and the
    offered angles, as fractions (glibc on x86-64). *)
Definition sin_table : list (Z * R) :=
  [
    (0%Z, 0);
    (15%Z, 291404338770025 / 1125899906842624);
    (21%Z, 1613945764033743 / 4503599627370496);
    (28%Z, 8457247820894329 / 18014398509481984);
    (30%Z, 9007199254740991 / 18014398509481984);
    (45%Z, 1592262918131443 / 2251799813685248);
    (49%Z, 6797819568528439 / 9007199254740992);
    (55%Z, 7378265682839367 / 9007199254740992);
    (60%Z, 3900231685776981 / 4503599627370496);
    (72%Z, 8566355544790271 / 9007199254740992);
    (81%Z, 2224076421331223 / 2251799813685248);
    (90%Z, 1);
    (99%Z, 2224076421331223 / 2251799813685248);
    (120%Z, 7800463371553963 / 9007199254740992);
    (144%Z, 5294298886396511 / 9007199254740992);
    (180%Z, 4967757600021511 / 40564819207303340847894502572032)
  ].

Fixpoint lookup_sin (table : list (Z * R)) (x : R) : option R :=
  match table with
  | [] => None
  | (a, v) :: table' =>
      if Req_EM_T x (deg2rad (IZR a)) then Some v else lookup_sin table' x
  end.

(** A sine that meets the contract: the tabulated binary64 value at the
    radians of a tabulated angle, the real sine elsewhere. *)
Definition sin64 (x : R) : R :=
  match lookup_sin sin_table x with
  | Some v => v
  | None => sin x
  end.

(** ** Compute cycles *)

Section ComputeCycles.

Variable np_sin : R -> R.

(** Body of the inner loop: the dictionary built for one angle.  The
    addition of the [timedelta] is the one statement of the loop that
    can raise. *)
Definition cycle_row (s : swing) (price scaled : R) (divisor : Z) (ang : Z)
  : option row :=
  let rad := deg2rad (IZR ang) in
  let days := scaled * np_sin rad in
  let days_r := py_round days in
  delta <- timedelta days_r ;;
  cycle_date <- datetime_add (date s) delta ;;
  Some {| Swing := name s;
          Price := price;
          Scaled_Price := py_round_ndigits scaled 6;
          Divisor := divisor;
          Angle := IZR ang;
          Days := days_r;
          Cycle_Date := cycle_date |}.

(** [for ang in selected_angles: ... rows.append({...})]. *)
Definition angle_loop (s : swing) (price scaled : R) (divisor : Z)
  (selected_angles : list Z) (rows : list row) : option (list row) :=
  fold_left
    (fun acc ang =>
       rows <- acc ;;
       r <- cycle_row s price scaled divisor ang ;;
       Some (rows ++ [r]))
    selected_angles (Some rows).

(** [rows = []; for s in swings: ...]; [None] when the loop raises. *)
Definition compute_cycles (swings : list swing) (selected_angles : list Z)
  : option (list row) :=
  fold_left
    (fun acc s =>
       rows <- acc ;;
       match price s with
       | None => Some rows
       | Some p =>
           let '(scaled, divisor) := scale_price p in
           angle_loop s p scaled divisor selected_angles rows
       end)
    swings (Some []).

End ComputeCycles.

(** ** Sorting the table *)

Definition date_le (a b : row) : Prop := (Cycle_Date a <= Cycle_Date b)%Z.

(** What [df.sort_values("Cycle Date")] promises with its default
    [kind]: the result holds the same rows, in ascending order of the
    key.  The order of rows with equal keys is left open by the default
    kind and is promised only for the kinds "mergesort" and "stable",
    which the program does not ask for. *)
Definition sort_values_contract (sort_values : list row -> list row) : Prop :=
  forall df, Permutation df (sort_values df) /\ Sorted date_le (sort_values df).

(** [df = pd.DataFrame(rows); df = df.sort_values("Cycle Date")
    .reset_index(drop=True)]: after the index is reset the labels are
    the positions, so the table is the list of its rows. *)
Definition project (np_sin : R -> R) (sort_values : list row -> list row)
  (swings : list swing) (selected_angles : list Z) : option (list row) :=
  rows <- compute_cycles np_sin swings selected_angles ;;
  Some (sort_values rows).

(** Two sorts that meet the contract, to show that it can be met and
    that it does not fix the order of rows of equal date: an insertion
    sort that keeps that order, and the same sort run on the reversed
    table, which reverses it. *)
Fixpoint insert_by_date (r : row) (l : list row) : list row :=
  match l with
  | [] => [r]
  | x :: l' =>
      if (Cycle_Date r <=? Cycle_Date x)%Z then r :: l
      else x :: insert_by_date r l'
  end.

Definition stable_sort_values (df : list row) : list row :=
  fold_right insert_by_date [] df.

Definition reversing_sort_values (df : list row) : list row :=
  stable_sort_values (rev df).

(** Rows of a table that carry a given date, in table order. *)
Definition rows_on (d : Z) (df : list row) : list row :=
  filter (fun r => (Cycle_Date r =? d)%Z) df.

(** Stability: rows of equal date appear in the output in the order in
    which they were emitted. *)
Definition ties_in_emission_order (emitted out : list row) : Prop :=
  forall d, rows_on d out = rows_on d emitted.

(** ** Cross-swing cluster detection *)

(** [df.loc[i, ...]] on a table whose index is [0 .. len(df) - 1];
    a label outside the index raises. *)
Definition loc (df : list row) (i : nat) : option row := nth_error df i.

(** The test of both loops: [abs((d_i - d_j).days) <= cluster_window]. *)
Definition within_window (cluster_window d_i d_j : Z) : bool :=
  (Z.abs (d_i - d_j) <=? cluster_window)%Z.

(** [count = 0; for j in range(len(df)): ... count += 1]. *)
Definition count_loop (df : list row) (cluster_window d_i : Z) : option Z :=
  fold_left
    (fun acc j =>
       count <- acc ;;
       r_j <- loc df j ;;
       Some (if within_window cluster_window d_i (Cycle_Date r_j)
             then (count + 1)%Z else count))
    (seq 0 (length df)) (Some 0%Z).

(** [cluster_flags = []; for i in range(len(df)): ...
    cluster_flags.append(count >= 2)]. *)
Definition cluster_flags (df : list row) (cluster_window : Z)
  : option (list bool) :=
  fold_left
    (fun acc i =>
       flags <- acc ;;
       r_i <- loc df i ;;
       count <- count_loop df cluster_window (Cycle_Date r_i) ;;
       Some (flags ++ [(2 <=? count)%Z]))
    (seq 0 (length df)) (Some []).

(** [sum(1 for k in range(len(df)) if abs((df.loc[i, ...] -
    df.loc[k, ...]).days) <= cluster_window)]: both cells are read anew
    for every [k]. *)
Definition cluster_count_at (df : list row) (cluster_window : Z) (i : nat)
  : option Z :=
  fold_left
    (fun acc k =>
       total <- acc ;;
       r_i <- loc df i ;;
       r_k <- loc df k ;;
       Some (if within_window cluster_window (Cycle_Date r_i) (Cycle_Date r_k)
             then (total + 1)%Z else total))
    (seq 0 (length df)) (Some 0%Z).

(** The list comprehension [[... for i in df.index]]. *)
Fixpoint cluster_counts_over (df : list row) (cluster_window : Z)
  (index : list nat) : option (list Z) :=
  match index with
  | [] => Some []
  | i :: index' =>
      c <- cluster_count_at df cluster_window i ;;
      rest <- cluster_counts_over df cluster_window index' ;;
      Some (c :: rest)
  end.

Definition cluster_counts (df : list row) (cluster_window : Z)
  : option (list Z) :=
  cluster_counts_over df cluster_window (seq 0 (length df)).

(** ["YES" if flag else ""]. *)
Definition cluster_label (flag : bool) : string :=
  if flag then "YES"%string else ""%string.

(** Assigning the two new columns; a column whose length differs from
    the table's raises. *)
Fixpoint assign_columns (df : list row) (cluster : list string)
  (counts : list Z) : option (list arow) :=
  match df, cluster, counts with
  | [], [], [] => Some []
  | r :: df', c :: cluster', n :: counts' =>
      rest <- assign_columns df' cluster' counts' ;;
      Some ({| projection := r; Cluster := c; Cluster_Count := n |} :: rest)
  | _, _, _ => None
  end.

Definition annotate_clusters (df : list row) (cluster_window : Z)
  : option (list arow) :=
  flags <- cluster_flags df cluster_window ;;
  counts <- cluster_counts df cluster_window ;;
  assign_columns df (map cluster_label flags) counts.

(** ** The script from the inputs to the annotated table *)

Inductive outcome : Type :=
| Stopped (message : string)
| Raised
| Table (df : list arow).

Definition analyze (np_sin : R -> R) (sort_values : list row -> list row)
  (swings : list swing) (selected_angles : list Z) (cluster_window : Z)
  : outcome :=
  match selected_angles with
  | [] => Stopped "Please select at least one angle!"
  | _ :: _ =>
      match compute_cycles np_sin swings selected_angles with
      | None => Raised
      | Some rows =>
          if (length rows =? 0)%nat then Stopped "No swing data entered yet."
          else
            match annotate_clusters (sort_values rows) cluster_window with
            | Some df => Table df
            | None => Raised
            end
      end
  end.

(** ** The description of the result, in the words of the specification *)

(** The projection of one swing at one angle. *)
Definition projection_of (np_sin : R -> R) (s : swing) (p : R) (a : Z)
  : row :=
  {| Swing := name s;
     Price := p;
     Scaled_Price := py_round_ndigits (fst (scale_price p)) 6;
     Divisor := snd (scale_price p);
     Angle := IZR a;
     Days := py_round (fst (scale_price p) * np_sin (IZR a * PI / 180));
     Cycle_Date :=
       (toordinal (date s)
        + py_round (fst (scale_price p) * np_sin (IZR a * PI / 180))%R)%Z |}.

(** The projection can be stored: its offset is a legal [timedelta] and
    its date is a date of the years 1 to 9999. *)
Definition representable (r : row) : bool :=
  (Z.abs (Days r) <=? 999999999)%Z && in_date_range (Cycle_Date r).

(** Swing-major, angle-minor emission; a swing without a price gives
    no row. *)
Definition emission (np_sin : R -> R) (swings : list swing)
  (angles : list Z) : list row :=
  flat_map
    (fun s =>
       match price s with
       | None => []
       | Some p => map (projection_of np_sin s p) angles
       end)
    swings.

(** A swing is usable when its price is present. *)
Definition usable (s : swing) : bool :=
  match price s with Some _ => true | None => false end.

(** Number of rows of a table within the window of a date. *)
Definition neighbours (df : list row) (window_days d : Z) : nat :=
  length (filter (fun r => within_window window_days d (Cycle_Date r)) df).

(** ** Inputs used in the examples *)

Definition date_2025_04_07 : datetime :=
  {| toordinal := ymd2ord 2025 4 7; toordinal_range := eq_refl |}.

Definition date_2025_05_09 : datetime :=
  {| toordinal := ymd2ord 2025 5 9; toordinal_range := eq_refl |}.

Definition date_2025_06_15 : datetime :=
  {| toordinal := ymd2ord 2025 6 15; toordinal_range := eq_refl |}.

(** The first swing as the form presents it: price 210 on 2025-04-07. *)
Definition swing_1 : swing :=
  {| name := "Swing 1"; price := Some 210; date := date_2025_04_07 |}.

(** A second swing entered with the same price and date. *)
Definition swing_2_same : swing :=
  {| name := "Swing 2"; price := Some 210; date := date_2025_04_07 |}.

(** A swing whose price was left at zero. *)
Definition swing_zero : swing :=
  {| name := "Swing 3"; price := Some 0; date := date_2025_06_15 |}.



Definition swing_15e18 : swing :=
  {| name := "Swing 1"; price := Some 15000000000000000000;
     date := date_2025_04_07 |}.

(** The form with the three prices left at 0 and the three dates at
    2025-04-07. *)
Definition three_zero_swings : list swing :=
  form_swings 0 date_2025_04_07 0 date_2025_04_07 0 date_2025_04_07.

(** A row that carries only a cycle date. *)
Definition row_on (d : Z) : row :=
  {| Swing := ""; Price := 0; Scaled_Price := 0; Divisor := 1;
     Angle := 0; Days := 0; Cycle_Date := d |}.

(** ** Presentation of the annotated table *)

(** [df.head(n)], that is [df.iloc[:n]]: the first [n] rows, or all but
    the last [-n] when [n] is negative. *)
Definition head {A : Type} (n : Z) (df : list A) : list A :=
  if (0 <=? n)%Z then firstn (Z.to_nat n) df
  else firstn (length df - Z.to_nat (- n)) df.

(** [df[["Swing", "Days", "Cycle Date", "Cluster", "Cluster Count"]]]. *)
Definition displayed_columns (a : arow) : string * Z * Z * string * Z :=
  (Swing (projection a), Days (projection a), Cycle_Date (projection a),
   Cluster a, Cluster_Count a).

(** The table shown on the left: the five columns, cut at
    [int(max_table_rows)] rows. *)
Definition table_shown (df : list arow) (max_table_rows : Z)
  : list (string * Z * Z * string * Z) :=
  head max_table_rows (map displayed_columns df).

(** [df["Cluster"] == "YES"]. *)
Definition is_clustered (a : arow) : bool := String.eqb (Cluster a) "YES".

Definition adate_le (a b : arow) : Prop :=
  date_le (projection a) (projection b).

(** The contract of [sort_values("Cycle Date")] on the annotated table. *)
Definition sort_annotated_contract (sort_values : list arow -> list arow)
  : Prop :=
  forall df,
    Permutation df (sort_values df) /\ Sorted adate_le (sort_values df).

(** The clustered rows: [cluster_df = df[df["Cluster"] == "YES"]], sorted
    again when it is not empty. *)
Definition cluster_df (sort_values : list arow -> list arow)
  (df : list arow) : list arow :=
  match filter is_clustered df with
  | [] => []
  | c :: cs => sort_values (c :: cs)
  end.

(** A sort of the annotated table that meets the contract. *)
Fixpoint insert_annotated (t : arow) (l : list arow) : list arow :=
  match l with
  | [] => [t]
  | x :: l' =>
      if (Cycle_Date (projection t) <=? Cycle_Date (projection x))%Z
      then t :: l
      else x :: insert_annotated t l'
  end.

Definition stable_sort_annotated (df : list arow) : list arow :=
  fold_right insert_annotated [] df.

(** [series.max()] of a column; there is no maximum of an empty one. *)
Definition column_max (column : list Z) : option Z :=
  match column with
  | [] => None
  | x :: xs => Some (fold_left Z.max xs x)
  end.

(** The closing summary: the three numbers of the "Computed ..." line
    and, when there are clustered rows, the reported maximum cluster
    size. *)
Definition summary (sort_values : list arow -> list arow)
  (df : list arow) (swings : list swing) (selected_angles : list Z)
  : (nat * nat * nat) * option Z :=
  ((length df, length swings, length selected_angles),
   column_max (map Cluster_Count (cluster_df sort_values df))).

(** The annotation of one row of a table, in the words of the legend:
    the count is the number of rows within the window, the flag says
    whether there are at least two. *)
Definition annotated (df : list row) (w : Z) (r : row) : arow :=
  {| projection := r;
     Cluster := cluster_label (2 <=? Z.of_nat (neighbours df w (Cycle_Date r)))%Z;
     Cluster_Count := Z.of_nat (neighbours df w (Cycle_Date r)) |}.


(** ** The default sort of [sort_values] *)

(** [df.sort_values("Cycle Date")] sorts with its default kind,
    "quicksort", which for a column of dates is numpy's [aquicksort_]:
    an introsort that partitions segments of more than 17 cells around a
    median-of-three pivot, finishes shorter segments by insertion, and
    falls back to heapsort when the depth budget is spent.  The array
    of row positions it permutes is kept here as the array of the rows
    themselves. *)

Definition less (x y : row) : bool := (Cycle_Date x <? Cycle_Date y)%Z.

Definition cell (a : list row) (i : nat) : option row := nth_error a i.

Fixpoint store (a : list row) (i : nat) (x : row) : list row :=
  match a, i with
  | [], _ => []
  | _ :: a', O => x :: a'
  | y :: a', S i' => y :: store a' i' x
  end.

(** [less(v[*p], v[*q])] *)
Definition less_at (a : list row) (p q : nat) : bool :=
  match cell a p, cell a q with
  | Some x, Some y => less x y
  | _, _ => false
  end.

(** [INTP_SWAP] of the cells [p] and [q]. *)
Definition swap (a : list row) (p q : nat) : list row :=
  match cell a p, cell a q with
  | Some x, Some y => store (store a p y) q x
  | _, _ => a
  end.

Definition SMALL_QUICKSORT : nat := 16.

(** [while (pj > pl && less(vp, v[*pk])) { *pj-- = *pk--; } *pj = vi;] *)
Fixpoint shift (a : list row) (vi : row) (pj pl : nat) : list row :=
  match pj with
  | O => store a pj vi
  | S pk =>
      if (pl <? pj)%nat
      then match cell a pk with
           | Some y =>
               if less vi y then shift (store a pj y) vi pk pl
               else store a pj vi
           | None => store a pj vi
           end
      else store a pj vi
  end.

(** [for (pi = pl + 1; pi <= pr; ++pi) { ... }], [count] iterations
    being left. *)
Fixpoint insertion_loop (count : nat) (a : list row) (pi pl : nat)
  : list row :=
  match count with
  | O => a
  | S count' =>
      match cell a pi with
      | Some vi => insertion_loop count' (shift a vi pi pl) (S pi) pl
      | None => a
      end
  end.

Definition insertion (a : list row) (pl pr : nat) : list row :=
  insertion_loop (pr - pl) a (S pl) pl.

(** [do { ++pi; } while (less(v[*pi], vp));], from the incremented
    [pi]. *)
Fixpoint scan_up (fuel : nat) (a : list row) (vp : row) (pi : nat) : nat :=
  match fuel with
  | O => pi
  | S fuel' =>
      match cell a pi with
      | Some x => if less x vp then scan_up fuel' a vp (S pi) else pi
      | None => pi
      end
  end.

(** [do { --pj; } while (less(vp, v[*pj]));], from the decremented
    [pj]. *)
Fixpoint scan_down (a : list row) (vp : row) (pj : nat) : nat :=
  match pj with
  | O => O
  | S pj' =>
      match cell a pj with
      | Some x => if less vp x then scan_down a vp pj' else pj
      | None => pj
      end
  end.

(** The [for (;;)] loop of the partition. *)
Fixpoint hoare (fuel : nat) (a : list row) (vp : row) (pi pj : nat)
  : list row * nat :=
  match fuel with
  | O => (a, pi)
  | S fuel' =>
      let pi' := scan_up (length a) a vp (S pi) in
      let pj' := scan_down a vp (pj - 1) in
      if (pj' <=? pi')%nat then (a, pi')
      else hoare fuel' (swap a pi' pj') vp pi' pj'
  end.

(** One partition of the segment [pl .. pr]: the rearranged array and
    the final place [pi] of the pivot. *)
Definition partition (a : list row) (pl pr : nat) : list row * nat :=
  let pm := (pl + Nat.div2 (pr - pl))%nat in
  let a := if less_at a pm pl then swap a pm pl else a in
  let a := if less_at a pr pm then swap a pr pm else a in
  let a := if less_at a pm pl then swap a pm pl else a in
  match cell a pm with
  | None => (a, pl)
  | Some vp =>
      let a := swap a pm (pr - 1) in
      let '(a, pi) := hoare (length a) a vp pl (pr - 1) in
      (swap a pi (pr - 1), pi)
  end.

(** The inner [while ((pr - pl) > SMALL_QUICKSORT)] loop: it keeps the
    smaller part of each partition and pushes the larger one. *)
Fixpoint partition_loop (fuel : nat) (a : list row) (pl pr : nat)
  (cdepth : Z) (stack : list (nat * nat * Z))
  : list row * nat * nat * list (nat * nat * Z) :=
  match fuel with
  | O => (a, pl, pr, stack)
  | S fuel' =>
      if (SMALL_QUICKSORT <? pr - pl)%nat then
        let '(a', pi) := partition a pl pr in
        let cdepth' := (cdepth - 1)%Z in
        if (pi - pl <? pr - pi)%nat
        then partition_loop fuel' a' pl (pi - 1) cdepth'
               ((pi + 1, pr, cdepth')%nat :: stack)
        else partition_loop fuel' a' (pi + 1) pr cdepth'
               ((pl, pi - 1, cdepth')%nat :: stack)
      else (a, pl, pr, stack)
  end.

(** [aheapsort_] on the [n] cells from [pl]; the C code indexes them
    from 1. *)
Definition heap_cell (a : list row) (pl k : nat) : option row :=
  cell a (pl + k - 1).

Definition heap_store (a : list row) (pl k : nat) (x : row) : list row :=
  store a (pl + k - 1) x.

(** [for (i = .., j = ..; j <= n;) { ... } a[i] = tmp;] *)
Fixpoint sift (fuel : nat) (a : list row) (pl n : nat) (tmp : row)
  (i j : nat) : list row :=
  match fuel with
  | O => heap_store a pl i tmp
  | S fuel' =>
      if (j <=? n)%nat then
        let j :=
          if (j <? n)%nat
          then match heap_cell a pl j, heap_cell a pl (j + 1) with
               | Some x, Some y => if less x y then (j + 1)%nat else j
               | _, _ => j
               end
          else j in
        match heap_cell a pl j with
        | Some y =>
            if less tmp y
            then sift fuel' (heap_store a pl i y) pl n tmp j (j + j)
            else heap_store a pl i tmp
        | None => heap_store a pl i tmp
        end
      else heap_store a pl i tmp
  end.

(** [for (l = n >> 1; l > 0; --l) { tmp = a[l]; ... }] *)
Fixpoint heapify (l : nat) (a : list row) (pl n : nat) : list row :=
  match l with
  | O => a
  | S l' =>
      match heap_cell a pl l with
      | Some tmp => heapify l' (sift n a pl n tmp l (l + l)) pl n
      | None => a
      end
  end.

(** [for (; n > 1;) { tmp = a[n]; a[n] = a[1]; n -= 1; ... }] *)
Fixpoint heap_drain (n : nat) (a : list row) (pl : nat) : list row :=
  match n with
  | O => a
  | S n' =>
      match n' with
      | O => a
      | S _ =>
          match heap_cell a pl n, heap_cell a pl 1 with
          | Some tmp, Some top =>
              heap_drain n' (sift n' (heap_store a pl n top) pl n' tmp 1 2) pl
          | _, _ => a
          end
      end
  end.

Definition aheapsort (a : list row) (pl n : nat) : list row :=
  heap_drain n (heapify (Nat.div2 n) a pl n) pl.

(** The outer [while (1)] loop, entered with a segment, its depth
    budget and the stack of the segments still to sort. *)
Fixpoint aquicksort_loop (fuel : nat) (a : list row) (pl pr : nat)
  (cdepth : Z) (stack : list (nat * nat * Z)) : list row :=
  match fuel with
  | O => a
  | S fuel' =>
      let '(a, stack) :=
        if (cdepth <? 0)%Z then (aheapsort a pl (pr - pl + 1), stack)
        else
          let '(a', pl', pr', stack') :=
            partition_loop (length a) a pl pr cdepth stack in
          (insertion a' pl' pr', stack') in
      match stack with
      | [] => a
      | (pl', pr', cdepth') :: stack' =>
          aquicksort_loop fuel' a pl' pr' cdepth' stack'
      end
  end.

(** [cdepth = npy_get_msb(num) * 2], [pl = tosort],
    [pr = tosort + num - 1]. *)
Definition aquicksort (a : list row) : list row :=
  aquicksort_loop (S (length a)) a 0 (length a - 1)
    (Z.log2 (Z.of_nat (length a)) * 2) [].

(** Insertion into a sorted list, before the first row that is strictly
    later. *)
Fixpoint place (x : row) (sorted : list row) : list row :=
  match sorted with
  | [] => [x]
  | y :: sorted' =>
      if less x y then x :: y :: sorted' else y :: place x sorted'
  end.
(** ** What the default sort maintains *)

(** The array [a'] holds the rows of [a], moved within the cells
    [pl .. pr] only. *)
Definition local (a a' : list row) (pl pr : nat) : Prop :=
  Permutation a a' /\
  forall i, (i < pl \/ pr < i)%nat -> cell a' i = cell a i.

(** No row before the cell [b] is later than a row from the cell [b]
    on. *)
Definition split_at (a : list row) (b : nat) : Prop :=
  forall i j x y,
    (i < b <= j)%nat -> cell a i = Some x -> cell a j = Some y -> date_le x y.

(** The cells [pl .. pr] are in ascending order of cycle date. *)
Definition sorted_seg (a : list row) (pl pr : nat) : Prop :=
  forall i j x y,
    (pl <= i <= j)%nat -> (j <= pr)%nat ->
    cell a i = Some x -> cell a j = Some y -> date_le x y.

(** Among the [n] cells from [pl], indexed from 1, no cell from the
    [lo]-th on is earlier than one of its two children. *)
Definition heap_ok (a : list row) (pl lo n : nat) : Prop :=
  forall k c x y,
    (lo <= k)%nat -> (c = k + k \/ c = S (k + k))%nat -> (c <= n)%nat ->
    heap_cell a pl k = Some x -> heap_cell a pl c = Some y -> date_le y x.

(** The segments of the stack, without their depth budgets. *)
Definition bounds (stack : list (nat * nat * Z)) : list (nat * nat) :=
  map (fun s => (fst (fst s), snd (fst s))) stack.

Fixpoint disjoint_segs (segs : list (nat * nat)) : Prop :=
  match segs with
  | [] => True
  | (l, r) :: rest =>
      (forall l' r', In (l', r') rest -> (r < l' \/ r' < l)%nat) /\
      disjoint_segs rest
  end.

(** What holds of the array while the segments [segs] are still to be
    sorted: they lie in the array and apart from each other, and the
    array is split at every cell that is not inside one of them. *)
Definition pending_ok (a : list row) (segs : list (nat * nat)) : Prop :=
  (forall l r, In (l, r) segs -> (l <= r < length a)%nat) /\
  disjoint_segs segs /\
  forall b,
    (forall l r, In (l, r) segs -> ~ (l < b <= r)%nat) -> split_at a b.

(** The number of cells in the segments still to be sorted. *)
Fixpoint cells_pending (segs : list (nat * nat)) : nat :=
  match segs with
  | [] => 0
  | (l, r) :: rest => (r - l + 1 + cells_pending rest)%nat
  end.

(** * Properties *)

(** ** Rounding and the scaler *)

Lemma Int_part_IZR (z : Z) : Int_part (IZR z) = z.
Proof. symmetry. apply Int_part_spec. lra. Qed.

Lemma py_round_IZR (z : Z) : py_round (IZR z) = z.
Proof.
  unfold py_round. rewrite Int_part_IZR.
  destruct (Rlt_dec (IZR z - IZR z) (1 / 2)) as [_ | Hn]; [reflexivity |].
  exfalso. apply Hn. lra.
Qed.

Lemma py_round_0 : py_round 0 = 0%Z.
Proof. exact (py_round_IZR 0). Qed.

(** Decides every rung of the ladder in [scale_price] from the bounds on
    the price that are among the hypotheses. *)
Ltac ladder :=
  unfold scale_price;
  repeat match goal with
         | |- context [Rge_dec ?a ?b] => destruct (Rge_dec a b)
         end;
  try (exfalso; lra); try reflexivity.

(** C1: the divisor is chosen by the descending ladder, the first rung
    that holds deciding: 3000 from 100000 up, 500 from 25000, 100 from
    10000, 10 from 1000, 2 from 500 and 1 below 500 (zero and negative
    prices included); the function is defined on every real price, and
    the scaled price it returns is the price over that divisor. *)
Theorem scale_price_ladder (p : R) :
  (p >= 100000 -> scale_price p = (p / 3000, 3000%Z)) /\
  (p < 100000 -> p >= 25000 -> scale_price p = (p / 500, 500%Z)) /\
  (p < 25000 -> p >= 10000 -> scale_price p = (p / 100, 100%Z)) /\
  (p < 10000 -> p >= 1000 -> scale_price p = (p / 10, 10%Z)) /\
  (p < 1000 -> p >= 500 -> scale_price p = (p / 2, 2%Z)) /\
  (p < 500 -> scale_price p = (p / 1, 1%Z)) /\
  fst (scale_price p) = p / IZR (snd (scale_price p)) /\
  (0 < snd (scale_price p))%Z.
Proof.
  repeat split; intros; ladder.
Qed.

Lemma scale_price_ladder_witness :
  scale_price 250000 = (250000 / 3000, 3000%Z) /\
  scale_price 30000 = (30000 / 500, 500%Z) /\
  scale_price 12000 = (12000 / 100, 100%Z) /\
  scale_price 1000 = (1000 / 10, 10%Z) /\
  scale_price 500 = (500 / 2, 2%Z) /\
  scale_price 0 = (0 / 1, 1%Z) /\
  scale_price (-7) = (-7 / 1, 1%Z).
Proof.
  destruct (scale_price_ladder 250000) as (H1 & _).
  destruct (scale_price_ladder 30000) as (_ & H2 & _).
  destruct (scale_price_ladder 12000) as (_ & _ & H3 & _).
  destruct (scale_price_ladder 1000) as (_ & _ & _ & H4 & _).
  destruct (scale_price_ladder 500) as (_ & _ & _ & _ & H5 & _).
  destruct (scale_price_ladder 0) as (_ & _ & _ & _ & _ & H6 & _).
  destruct (scale_price_ladder (-7)) as (_ & _ & _ & _ & _ & H7 & _).
  repeat split;
    [apply H1 | apply H2 | apply H3 | apply H4 | apply H5 | apply H6
     | apply H7]; lra.
Defined.

Lemma scale_price_divisor (p : R) :
  In (snd (scale_price p)) [1; 2; 10; 100; 500; 3000]%Z.
Proof.
  unfold scale_price; simpl snd.
  repeat match goal with
         | |- context [Rge_dec ?a ?b] => destruct (Rge_dec a b)
         end; simpl; tauto.
Qed.

(** C7: the scaled price times the divisor gives the price back (exactly,
    over the reals), and the divisor is one of 1, 2, 10, 100, 500, 3000. *)
Theorem scale_price_inverse (p : R) :
  fst (scale_price p) * IZR (snd (scale_price p)) = p /\
  In (snd (scale_price p)) [1; 2; 10; 100; 500; 3000]%Z.
Proof.
  split; [| apply scale_price_divisor].
  unfold scale_price; simpl fst; simpl snd.
  repeat match goal with
         | |- context [Rge_dec ?a ?b] => destruct (Rge_dec a b)
         end; field.
Qed.


Lemma py_round_near (x : R) : -1 / 2 <= IZR (py_round x) - x <= 1 / 2.
Proof.
  unfold py_round. destruct (base_Int_part x) as [H1 H2].
  destruct (Rlt_dec (x - IZR (Int_part x)) (1 / 2)) as [Hl | Hl].
  - lra.
  - destruct (Rlt_dec (1 / 2) (x - IZR (Int_part x))) as [Hg | Hg].
    + rewrite plus_IZR. lra.
    + destruct (Z.even (Int_part x)); [| rewrite plus_IZR]; lra.
Qed.


Lemma py_round_unique (x : R) (z : Z) :
  IZR z - 1 / 2 < x < IZR z + 1 / 2 -> py_round x = z.
Proof.
  intros [Hlo Hhi]. pose proof (py_round_near x) as [Hn1 Hn2].
  assert (H1 : (py_round x < z + 1)%Z)
    by (apply lt_IZR; rewrite plus_IZR; lra).
  assert (H2 : (z - 1 < py_round x)%Z)
    by (apply lt_IZR; rewrite minus_IZR; lra).
  lia.
Qed.

Lemma py_round_between (x : R) (lo hi : Z) :
  IZR lo <= x <= IZR hi -> (lo <= py_round x <= hi)%Z.
Proof.
  intros [Hlo Hhi]. pose proof (py_round_near x) as [Hn1 Hn2].
  split.
  - assert (H : (lo - 1 < py_round x)%Z); [| lia].
    apply lt_IZR. rewrite minus_IZR. lra.
  - assert (H : (py_round x < hi + 1)%Z); [| lia].
    apply lt_IZR. rewrite plus_IZR. lra.
Qed.

(** ** A sine that meets the contract *)

Lemma deg2rad_inj (a b : Z) : deg2rad (IZR a) = deg2rad (IZR b) -> a = b.
Proof.
  unfold deg2rad. intros H. apply eq_IZR.
  pose proof PI_RGT_0. nra.
Qed.

Lemma deg2rad_div (a : Z) : deg2rad (IZR a) = IZR a * PI / 180.
Proof. unfold deg2rad. field. Qed.

(** Evaluates [sin64] at the radians of a given angle. *)
Ltac sin64_at :=
  unfold sin64, sin_table; cbn [lookup_sin];
  repeat match goal with
         | |- context [Req_EM_T ?x ?y] =>
             let E := fresh "E" in
             let N := fresh "N" in
             destruct (Req_EM_T x y) as [E | N];
             [ try (apply deg2rad_inj in E; discriminate E)
             | try (exfalso; apply N; reflexivity) ]
         end.

Lemma sin64_0 : sin64 (deg2rad 0) = 0.
Proof. sin64_at. reflexivity. Qed.

Lemma sin64_90 : sin64 (deg2rad 90) = 1.
Proof. sin64_at. reflexivity. Qed.

Lemma sin64_180 : sin64 (deg2rad 180) = sin_pi_64.
Proof. sin64_at. reflexivity. Qed.

Lemma sin64_bounded (x : R) : -1 <= sin64 x <= 1.
Proof.
  unfold sin64, sin_table; cbn [lookup_sin].
  repeat match goal with
         | |- context [Req_EM_T ?a ?b] =>
             destruct (Req_EM_T a b) as [_ | _]; [lra |]
         end.
  apply SIN_bound.
Qed.

Lemma sin64_offered (a : Z) :
  In a all_gann_angles -> 0 <= sin64 (deg2rad (IZR a)).
Proof.
  unfold all_gann_angles. simpl.
  intros H.
  repeat (destruct H as [<- | H]; [sin64_at; lra |]).
  contradiction.
Qed.

Lemma sin64_contract : np_sin_contract sin64.
Proof.
  constructor.
  - exact sin64_bounded.
  - exact sin64_0.
  - exact sin64_90.
  - exact sin64_180.
  - exact sin64_offered.
Qed.

(** ** The projection loop *)

Lemma in_date_range_iff (o : Z) :
  in_date_range o = true <-> (1 <= o <= MAXORDINAL)%Z.
Proof. unfold in_date_range. rewrite andb_true_iff, !Z.leb_le. tauto. Qed.

Lemma date_in_range (d : datetime) : (1 <= toordinal d <= MAXORDINAL)%Z.
Proof. apply in_date_range_iff, toordinal_range. Qed.

Lemma cycle_row_projection np_sin s p a :
  cycle_row np_sin s p (fst (scale_price p)) (snd (scale_price p)) a =
  if representable (projection_of np_sin s p a)
  then Some (projection_of np_sin s p a) else None.
Proof.
  unfold cycle_row, representable, projection_of, timedelta, datetime_add.
  cbn [Days Cycle_Date]. rewrite deg2rad_div.
  destruct (Z.abs _ <=? 999999999)%Z; cbn [andb]; [| reflexivity].
  destruct (in_date_range _); reflexivity.
Qed.

Lemma loop_raised {A B : Type} (step : option B -> A -> option B)
  (l : list A) :
  (forall x, step None x = None) -> fold_left step l None = None.
Proof.
  intros H. induction l as [| x l IH]; cbn [fold_left]; [reflexivity |].
  now rewrite H.
Qed.

Lemma angle_loop_app np_sin s p angles rows :
  angle_loop np_sin s p (fst (scale_price p)) (snd (scale_price p))
    angles rows =
  if forallb representable (map (projection_of np_sin s p) angles)
  then Some (rows ++ map (projection_of np_sin s p) angles) else None.
Proof.
  unfold angle_loop. revert rows.
  induction angles as [| a angles IH]; intros rows; cbn [fold_left map forallb].
  - now rewrite app_nil_r.
  - rewrite cycle_row_projection.
    destruct (representable (projection_of np_sin s p a)); cbn [andb].
    + rewrite IH, <- app_assoc. reflexivity.
    + apply loop_raised. reflexivity.
Qed.

Lemma compute_cycles_from np_sin swings angles rows :
  fold_left
    (fun acc s =>
       rows <- acc ;;
       match price s with
       | None => Some rows
       | Some p =>
           let '(scaled, divisor) := scale_price p in
           angle_loop np_sin s p scaled divisor angles rows
       end)
    swings (Some rows)
  = if forallb representable (emission np_sin swings angles)
    then Some (rows ++ emission np_sin swings angles) else None.
Proof.
  revert rows.
  induction swings as [| s swings IH]; intros rows; cbn [fold_left].
  - simpl. now rewrite app_nil_r.
  - unfold emission. cbn [flat_map]. fold (emission np_sin swings angles).
    destruct (price s) as [p |]; [| apply IH].
    destruct (scale_price p) as [scaled divisor] eqn:E.
    change scaled with (fst (scaled, divisor)).
    change divisor with (snd (scaled, divisor)) at 2.
    rewrite <- E, angle_loop_app, forallb_app.
    destruct (forallb representable (map (projection_of np_sin s p) angles));
      cbn [andb].
    + rewrite IH, <- app_assoc. reflexivity.
    + apply loop_raised. reflexivity.
Qed.

(** The loop either raises or returns the emission. *)
Lemma compute_cycles_emission np_sin swings angles :
  compute_cycles np_sin swings angles =
  if forallb representable (emission np_sin swings angles)
  then Some (emission np_sin swings angles) else None.
Proof. unfold compute_cycles. now rewrite compute_cycles_from. Qed.

Lemma compute_cycles_returns np_sin swings angles rows :
  compute_cycles np_sin swings angles = Some rows ->
  rows = emission np_sin swings angles.
Proof.
  rewrite compute_cycles_emission.
  destruct (forallb representable (emission np_sin swings angles));
    [now intros [= <-] | discriminate].
Qed.

Lemma emission_length np_sin swings angles :
  length (emission np_sin swings angles) =
  (length (filter usable swings) * length angles)%nat.
Proof.
  unfold emission.
  induction swings as [| s swings IH]; simpl; [reflexivity |].
  rewrite length_app, IH. unfold usable at 2.
  destruct (price s); simpl; [now rewrite length_map | reflexivity].
Qed.

Lemma in_emission np_sin swings angles r :
  In r (emission np_sin swings angles) <->
  exists s p a,
    In s swings /\ price s = Some p /\ In a angles /\
    r = projection_of np_sin s p a.
Proof.
  unfold emission. rewrite in_flat_map. split.
  - intros (s & Hs & Hr). destruct (price s) as [p |] eqn:Hp; [| contradiction].
    apply in_map_iff in Hr as (a & <- & Ha). now exists s, p, a.
  - intros (s & p & a & Hs & Hp & Ha & ->). exists s. split; [assumption |].
    rewrite Hp. now apply in_map.
Qed.

Lemma in_compute_cycles np_sin swings angles rows r :
  compute_cycles np_sin swings angles = Some rows ->
  In r rows <->
  exists s p a,
    In s swings /\ price s = Some p /\ In a angles /\
    r = projection_of np_sin s p a.
Proof.
  intros H. apply compute_cycles_returns in H. subst rows.
  apply in_emission.
Qed.


(** ** Particular prices and angles *)

Lemma scale_price_0 : scale_price 0 = (0, 1%Z).
Proof. ladder. f_equal. lra. Qed.

Lemma scale_price_210 : scale_price 210 = (210, 1%Z).
Proof. ladder. f_equal. lra. Qed.

Lemma np_sin_deg_0 np_sin :
  np_sin_contract np_sin -> np_sin (IZR 0 * PI / 180) = 0.
Proof. intros H. rewrite <- deg2rad_div. apply (np_sin_0 np_sin H). Qed.

Lemma np_sin_deg_90 np_sin :
  np_sin_contract np_sin -> np_sin (IZR 90 * PI / 180) = 1.
Proof. intros H. rewrite <- deg2rad_div. apply (np_sin_90 np_sin H). Qed.

Lemma np_sin_deg_180 np_sin :
  np_sin_contract np_sin -> np_sin (IZR 180 * PI / 180) = sin_pi_64.
Proof. intros H. rewrite <- deg2rad_div. apply (np_sin_180 np_sin H). Qed.

Lemma projection_no_offset np_sin s p a :
  py_round (fst (scale_price p) * np_sin (IZR a * PI / 180)) = 0%Z ->
  Days (projection_of np_sin s p a) = 0%Z /\
  Cycle_Date (projection_of np_sin s p a) = toordinal (date s) /\
  representable (projection_of np_sin s p a) = true.
Proof.
  intros H. unfold representable, projection_of. cbn [Days Cycle_Date].
  rewrite H, Z.add_0_r. split; [reflexivity |]. split; [reflexivity |].
  cbn [Z.abs Z.leb andb]. apply toordinal_range.
Qed.

Lemma projection_emitted np_sin swings angles rows s p a :
  compute_cycles np_sin swings angles = Some rows ->
  In s swings -> price s = Some p -> In a angles ->
  In (projection_of np_sin s p a) rows.
Proof.
  intros Hrows Hs Hp Ha. apply (in_compute_cycles _ _ _ _ _ Hrows).
  now exists s, p, a.
Qed.

(** The row of a swing priced 210 at 90 degrees: the price is below 500,
    so it is not scaled down, and the offset is 210 days. *)
Lemma projection_210_at_90 np_sin s :
  np_sin_contract np_sin ->
  projection_of np_sin s 210 90 =
  {| Swing := name s; Price := 210; Scaled_Price := 210; Divisor := 1;
     Angle := 90; Days := 210;
     Cycle_Date := (toordinal (date s) + 210)%Z |}.
Proof.
  intros Hsin. unfold projection_of. rewrite scale_price_210. cbn [fst snd].
  rewrite (np_sin_deg_90 np_sin Hsin).
  replace (210 * 1) with (IZR 210) by lra.
  rewrite py_round_IZR.
  f_equal. unfold py_round_ndigits.
  replace (210 * 10 ^ 6) with (IZR 210000000) by (simpl; lra).
  rewrite py_round_IZR. simpl. lra.
Qed.

Lemma compute_cycles_single np_sin s p a r :
  price s = Some p ->
  projection_of np_sin s p a = r ->
  compute_cycles np_sin [s] [a] =
  if representable r then Some [r] else None.
Proof.
  intros Hp <-. rewrite compute_cycles_emission. unfold emission.
  cbn [flat_map map app forallb]. rewrite Hp.
  cbn [map app forallb]. now rewrite andb_true_r.
Qed.

Lemma compute_cycles_swing_1_at_90 np_sin :
  np_sin_contract np_sin ->
  compute_cycles np_sin [swing_1] [90]%Z =
  Some
    [ {| Swing := "Swing 1"; Price := 210; Scaled_Price := 210; Divisor := 1;
         Angle := 90; Days := 210; Cycle_Date := ymd2ord 2025 11 3 |} ].
Proof.
  intros Hsin.
  rewrite (compute_cycles_single np_sin swing_1 210 90 _ eq_refl
             (projection_210_at_90 np_sin swing_1 Hsin)).
  reflexivity.
Qed.

(** The amended C9: for the swing priced 210 on 2025-04-07 at 90
    degrees the divisor is 1, the scaled price 210, the day offset 210
    and the cycle date 2025-11-03. *)
Theorem example_swing_210 (np_sin : R -> R) :
  np_sin_contract np_sin ->
  scale_price 210 = (210, 1%Z) /\
  compute_cycles np_sin [swing_1] [90]%Z =
  Some
    [ {| Swing := "Swing 1"; Price := 210; Scaled_Price := 210; Divisor := 1;
         Angle := 90; Days := 210; Cycle_Date := ymd2ord 2025 11 3 |} ].
Proof.
  intros Hsin.
  split; [apply scale_price_210 | now apply compute_cycles_swing_1_at_90].
Qed.

Lemma example_swing_210_witness :
  scale_price 210 = (210, 1%Z) /\
  compute_cycles sin64 [swing_1] [90]%Z =
  Some
    [ {| Swing := "Swing 1"; Price := 210; Scaled_Price := 210; Divisor := 1;
         Angle := 90; Days := 210; Cycle_Date := ymd2ord 2025 11 3 |} ].
Proof. apply (example_swing_210 sin64). exact sin64_contract. Defined.

(** C9 as the specification words it does not hold: the scaler does not
    halve 210, the offset is not 105 days and the cycle date is not
    2025-07-21. *)
Lemma swing_210_not_halved :
  fst (scale_price 210) <> 210 / 2 /\
  snd (scale_price 210) <> 2%Z /\
  exists r, compute_cycles sin64 [swing_1] [90]%Z = Some [r] /\
            Scaled_Price r <> 105 /\ Days r <> 105%Z /\
            Cycle_Date r <> ymd2ord 2025 7 21.
Proof.
  rewrite scale_price_210, (compute_cycles_swing_1_at_90 sin64 sin64_contract).
  cbn [fst snd].
  split; [lra |]. split; [discriminate |].
  eexists. split; [reflexivity |]. cbn [Scaled_Price Days Cycle_Date].
  split; [lra |]. split; [discriminate |]. vm_compute. discriminate.
Qed.

(** ** Prices that project beyond the calendar *)







(** ** Angles 0 and 180, and the zero price *)

Lemma straight_offset np_sin p a :
  np_sin_contract np_sin ->
  a = 0%Z \/ (a = 180%Z /\ -4000000000000000 <= p <= 12000000000000000000) ->
  py_round (fst (scale_price p) * np_sin (IZR a * PI / 180)) = 0%Z.
Proof.
  intros Hsin [-> | [-> Hp]].
  - rewrite (np_sin_deg_0 np_sin Hsin), Rmult_0_r. apply py_round_0.
  - rewrite (np_sin_deg_180 np_sin Hsin). apply py_round_unique.
    unfold sin_pi_64, scale_price. cbn [fst].
    repeat match goal with
           | |- context [Rge_dec ?a ?b] => destruct (Rge_dec a b)
           end; lra.
Qed.

(** The amended C8: at the angle 0 the row emitted for a swing has day
    offset 0 and the anchor date as cycle date.  At the angle 180 the
    sine computed is 1.2246467991473532e-16, not 0, and the same holds
    as long as the price lies between -4e15 and 1.2e19, where the
    product still rounds to 0.  Such a row never makes the loop raise,
    and it is among the rows whenever the loop returns. *)
Theorem straight_angle_projection
  (np_sin : R -> R) (swings : list swing) (angles : list Z)
  (s : swing) (p : R) (a : Z) :
  np_sin_contract np_sin ->
  In s swings -> price s = Some p -> In a angles ->
  a = 0%Z \/ (a = 180%Z /\ -4000000000000000 <= p <= 12000000000000000000) ->
  Days (projection_of np_sin s p a) = 0%Z /\
  Cycle_Date (projection_of np_sin s p a) = toordinal (date s) /\
  cycle_row np_sin s p (fst (scale_price p)) (snd (scale_price p)) a =
    Some (projection_of np_sin s p a) /\
  (forall rows,
      compute_cycles np_sin swings angles = Some rows ->
      In (projection_of np_sin s p a) rows).
Proof.
  intros Hsin Hs Hp Ha Hang.
  destruct (projection_no_offset np_sin s p a
              (straight_offset np_sin p a Hsin Hang)) as (H1 & H2 & H3).
  split; [assumption |]. split; [assumption |]. split.
  - now rewrite cycle_row_projection, H3.
  - intros rows Hrows. now apply (projection_emitted np_sin swings angles).
Qed.

Lemma straight_angle_projection_witness :
  Days (projection_of sin64 swing_1 210 180) = 0%Z /\
  Cycle_Date (projection_of sin64 swing_1 210 180) = toordinal (date swing_1) /\
  cycle_row sin64 swing_1 210 (fst (scale_price 210)) (snd (scale_price 210))
    180 = Some (projection_of sin64 swing_1 210 180) /\
  (forall rows,
      compute_cycles sin64 [swing_1] [90; 180]%Z = Some rows ->
      In (projection_of sin64 swing_1 210 180) rows).
Proof.
  apply (straight_angle_projection sin64 [swing_1] [90; 180]%Z swing_1 210 180).
  - exact sin64_contract.
  - simpl. left. reflexivity.
  - reflexivity.
  - simpl. right. left. reflexivity.
  - right. split; [reflexivity | lra].
Defined.

(** C8 as the specification words it does not hold: for the swing
    priced 1.5e19 on 2025-04-07 the row at 180 degrees has day offset 1
    and the day after the anchor date as cycle date. *)
Lemma straight_angle_off_by_one :
  np_sin_contract sin64 /\
  exists r,
    compute_cycles sin64 [swing_15e18] [180]%Z = Some [r] /\
    Angle r = 180 /\ Days r = 1%Z /\
    Cycle_Date r = (toordinal (date swing_15e18) + 1)%Z /\
    Cycle_Date r = ymd2ord 2025 4 8.
Proof.
  split; [exact sin64_contract |].
  assert (E : Days (projection_of sin64 swing_15e18 15000000000000000000 180)
              = 1%Z).
  { unfold projection_of. cbn [Days].
    assert (Es : scale_price 15000000000000000000
                 = (15000000000000000000 / 3000, 3000%Z)) by ladder.
    rewrite Es. cbn [fst]. rewrite (np_sin_deg_180 sin64 sin64_contract).
    apply py_round_unique. unfold sin_pi_64. lra. }
  exists (projection_of sin64 swing_15e18 15000000000000000000 180).
  assert (Ec : Cycle_Date
                 (projection_of sin64 swing_15e18 15000000000000000000 180)
               = (toordinal (date swing_15e18) + 1)%Z).
  { change (Cycle_Date
              (projection_of sin64 swing_15e18 15000000000000000000 180))
      with (toordinal (date swing_15e18)
            + Days (projection_of sin64 swing_15e18
                      15000000000000000000 180))%Z.
    now rewrite E. }
  split.
  - rewrite (compute_cycles_single sin64 swing_15e18 15000000000000000000
               180 _ eq_refl eq_refl).
    unfold representable. rewrite E, Ec. reflexivity.
  - split; [reflexivity |]. split; [assumption |]. split; [assumption |].
    rewrite Ec. reflexivity.
Qed.

Lemma zero_price_offset np_sin a :
  py_round (fst (scale_price 0) * np_sin (IZR a * PI / 180)) = 0%Z.
Proof.
  rewrite scale_price_0. cbn [fst]. rewrite Rmult_0_l. apply py_round_0.
Qed.

Lemma zero_price_rows np_sin s angles :
  price s = Some 0 ->
  compute_cycles np_sin [s] angles =
  Some (map (projection_of np_sin s 0) angles).
Proof.
  intros Hp. rewrite compute_cycles_emission. unfold emission.
  cbn [flat_map]. rewrite Hp, app_nil_r.
  replace (forallb representable (map (projection_of np_sin s 0) angles))
    with true; [reflexivity |].
  symmetry. apply forallb_forall. intros r Hr.
  apply in_map_iff in Hr as (a & <- & _).
  apply (projection_no_offset np_sin s 0 a (zero_price_offset np_sin a)).
Qed.

(** C10: a swing whose price is 0 is processed: [scale_price 0] is
    [(0, 1)]; on its own the swing gives one row per selected angle and
    the loop does not raise; each of these rows has day offset 0 and the
    anchor date as cycle date, and it is among the rows whenever the
    loop over all the swings returns. *)
Theorem zero_price_projection
  (np_sin : R -> R) (swings : list swing) (angles : list Z) (s : swing) :
  In s swings -> price s = Some 0 ->
  scale_price 0 = (0, 1%Z) /\
  compute_cycles np_sin [s] angles =
    Some (map (projection_of np_sin s 0) angles) /\
  option_map (@length row) (compute_cycles np_sin [s] angles) =
    Some (length angles) /\
  forall a, In a angles ->
    Days (projection_of np_sin s 0 a) = 0%Z /\
    Cycle_Date (projection_of np_sin s 0 a) = toordinal (date s) /\
    (forall rows,
        compute_cycles np_sin swings angles = Some rows ->
        In (projection_of np_sin s 0 a) rows).
Proof.
  intros Hs Hp.
  pose proof (zero_price_offset np_sin) as Hz.
  pose proof (zero_price_rows np_sin s angles Hp) as E.
  split; [apply scale_price_0 |]. split; [assumption |].
  split; [rewrite E; cbn [option_map]; now rewrite length_map |].
  intros a Ha.
  destruct (projection_no_offset np_sin s 0 a (Hz a)) as (H1 & H2 & _).
  split; [assumption |]. split; [assumption |].
  intros rows Hrows. now apply (projection_emitted np_sin swings angles).
Qed.

Lemma zero_price_projection_witness :
  scale_price 0 = (0, 1%Z) /\
  compute_cycles sin64 [swing_zero] [15; 90]%Z =
    Some (map (projection_of sin64 swing_zero 0) [15; 90]%Z) /\
  option_map (@length row) (compute_cycles sin64 [swing_zero] [15; 90]%Z) =
    Some 2%nat /\
  forall a, In a [15; 90]%Z ->
    Days (projection_of sin64 swing_zero 0 a) = 0%Z /\
    Cycle_Date (projection_of sin64 swing_zero 0 a)
      = toordinal (date swing_zero) /\
    (forall rows,
        compute_cycles sin64 [swing_1; swing_zero] [15; 90]%Z = Some rows ->
        In (projection_of sin64 swing_zero 0 a) rows).
Proof.
  apply (zero_price_projection sin64 [swing_1; swing_zero] [15; 90]%Z
           swing_zero).
  - simpl. right. left. reflexivity.
  - reflexivity.
Defined.

(** ** Sorting *)

Lemma insert_by_date_perm r l : Permutation (r :: l) (insert_by_date r l).
Proof.
  induction l as [| x l IH]; simpl; [reflexivity |].
  destruct (Cycle_Date r <=? Cycle_Date x)%Z; [reflexivity |].
  rewrite perm_swap. now constructor.
Qed.

Lemma insert_by_date_hd x r l :
  date_le x r -> HdRel date_le x l -> HdRel date_le x (insert_by_date r l).
Proof.
  intros Hxr Hl. destruct l as [| y l]; simpl; [now constructor |].
  destruct (Cycle_Date r <=? Cycle_Date y)%Z; constructor;
    [assumption | now inversion Hl].
Qed.

Lemma insert_by_date_sorted r l :
  Sorted date_le l -> Sorted date_le (insert_by_date r l).
Proof.
  induction 1 as [| x l Hl IH Hx]; simpl; [repeat constructor |].
  destruct (Cycle_Date r <=? Cycle_Date x)%Z eqn:E.
  - constructor; [now constructor |].
    constructor. unfold date_le. lia.
  - constructor; [assumption |].
    apply insert_by_date_hd; [unfold date_le; lia | assumption].
Qed.

Lemma stable_sort_values_contract : sort_values_contract stable_sort_values.
Proof.
  intros df. unfold stable_sort_values. split.
  - induction df as [| r df IH]; simpl; [reflexivity |].
    rewrite <- insert_by_date_perm. now constructor.
  - induction df as [| r df IH]; simpl; [constructor |].
    now apply insert_by_date_sorted.
Qed.

Lemma reversing_sort_values_contract :
  sort_values_contract reversing_sort_values.
Proof.
  intros df. unfold reversing_sort_values.
  destruct (stable_sort_values_contract (rev df)) as [Hp Hs].
  split; [| assumption].
  now rewrite <- Hp, <- Permutation_rev.
Qed.





(** ** The cluster loops *)

Lemma loc_middle (pre suf : list row) (x : row) :
  loc (pre ++ x :: suf) (length pre) = Some x.
Proof.
  unfold loc. rewrite nth_error_app2 by lia. now rewrite Nat.sub_diag.
Qed.

Section IndexLoops.

Context {A : Type}.
Variable body : A -> nat -> option A.
Variable pure : A -> row -> A.

(** A loop over [range(len(df))] whose body reads row [j] and cannot
    fail once the row is there is a fold over the rows. *)
Lemma loop_from (suf pre : list row) (a0 : A) :
  (forall a j r, loc (pre ++ suf) j = Some r -> body a j = Some (pure a r)) ->
  fold_left (fun acc j => a <- acc ;; body a j)
    (seq (length pre) (length suf)) (Some a0)
  = Some (fold_left pure suf a0).
Proof.
  revert pre a0.
  induction suf as [| x suf IH]; intros pre a0 H; [reflexivity |].
  cbn [length seq fold_left].
  rewrite (H a0 (length pre) x) by apply loc_middle.
  specialize (IH (pre ++ [x]) (pure a0 x)).
  rewrite length_app, Nat.add_1_r, <- app_assoc in IH.
  apply IH. exact H.
Qed.

Lemma loop_over_index (df : list row) (a0 : A) :
  (forall a j r, loc df j = Some r -> body a j = Some (pure a r)) ->
  fold_left (fun acc j => a <- acc ;; body a j) (seq 0 (length df)) (Some a0)
  = Some (fold_left pure df a0).
Proof. exact (loop_from df [] a0). Qed.

End IndexLoops.

Lemma count_fold (w d : Z) (df : list row) (c : Z) :
  fold_left
    (fun count r =>
       if within_window w d (Cycle_Date r) then (count + 1)%Z else count)
    df c
  = (c + Z.of_nat (neighbours df w d))%Z.
Proof.
  unfold neighbours. revert c.
  induction df as [| r df IH]; intros c; cbn [fold_left filter].
  - simpl. lia.
  - rewrite IH. destruct (within_window w d (Cycle_Date r)); cbn [length]; lia.
Qed.

Lemma count_loop_neighbours df w d :
  count_loop df w d = Some (Z.of_nat (neighbours df w d)).
Proof.
  unfold count_loop.
  etransitivity.
  - apply (loop_over_index
             (fun count j =>
                r_j <- loc df j ;;
                Some (if within_window w d (Cycle_Date r_j)
                      then (count + 1)%Z else count))
             (fun count r =>
                if within_window w d (Cycle_Date r)
                then (count + 1)%Z else count)).
    intros a j r Hj. now rewrite Hj.
  - now rewrite count_fold.
Qed.

Lemma cluster_count_at_neighbours df w i r :
  loc df i = Some r ->
  cluster_count_at df w i = Some (Z.of_nat (neighbours df w (Cycle_Date r))).
Proof.
  intros Hi. unfold cluster_count_at.
  etransitivity.
  - apply (loop_over_index
             (fun total k =>
                r_i <- loc df i ;;
                r_k <- loc df k ;;
                Some (if within_window w (Cycle_Date r_i) (Cycle_Date r_k)
                      then (total + 1)%Z else total))
             (fun total r_k =>
                if within_window w (Cycle_Date r) (Cycle_Date r_k)
                then (total + 1)%Z else total)).
    intros a k r_k Hk. now rewrite Hi, Hk.
  - now rewrite count_fold.
Qed.

Lemma append_fold {B : Type} (g : row -> B) (df : list row) (acc : list B) :
  fold_left (fun l r => l ++ [g r]) df acc = acc ++ map g df.
Proof.
  revert acc. induction df as [| r df IH]; intros acc; simpl.
  - now rewrite app_nil_r.
  - now rewrite IH, <- app_assoc.
Qed.

(** The flag of a row, from the first loop. *)
Lemma cluster_flags_eq df w :
  cluster_flags df w =
  Some (map (fun r => (2 <=? Z.of_nat (neighbours df w (Cycle_Date r)))%Z) df).
Proof.
  unfold cluster_flags.
  etransitivity.
  - apply (loop_over_index
             (fun flags i =>
                r_i <- loc df i ;;
                count <- count_loop df w (Cycle_Date r_i) ;;
                Some (flags ++ [(2 <=? count)%Z]))
             (fun flags r =>
                flags ++ [(2 <=? Z.of_nat (neighbours df w (Cycle_Date r)))%Z])).
    intros a j r Hj. now rewrite Hj, count_loop_neighbours.
  - now rewrite append_fold.
Qed.

Lemma cluster_counts_from df w (suf pre : list row) :
  df = pre ++ suf ->
  cluster_counts_over df w (seq (length pre) (length suf)) =
  Some (map (fun r => Z.of_nat (neighbours df w (Cycle_Date r))) suf).
Proof.
  revert pre. induction suf as [| x suf IH]; intros pre E; [reflexivity |].
  cbn [length seq cluster_counts_over map].
  rewrite (cluster_count_at_neighbours df w (length pre) x)
    by (subst df; apply loc_middle).
  specialize (IH (pre ++ [x])).
  rewrite length_app, Nat.add_1_r, <- app_assoc in IH.
  now rewrite (IH E).
Qed.

(** The count of a row, from the comprehension. *)
Lemma cluster_counts_eq df w :
  cluster_counts df w =
  Some (map (fun r => Z.of_nat (neighbours df w (Cycle_Date r))) df).
Proof. exact (cluster_counts_from df w df [] eq_refl). Qed.

Lemma assign_columns_map (f : row -> string) (g : row -> Z) df :
  assign_columns df (map f df) (map g df) =
  Some (map (fun r => {| projection := r; Cluster := f r;
                         Cluster_Count := g r |}) df).
Proof.
  induction df as [| r df IH]; simpl; [reflexivity |]. now rewrite IH.
Qed.

(** The annotated table, row by row. *)
Lemma annotate_clusters_eq df w :
  annotate_clusters df w =
  Some (map (fun r =>
               {| projection := r;
                  Cluster :=
                    cluster_label
                      (2 <=? Z.of_nat (neighbours df w (Cycle_Date r)))%Z;
                  Cluster_Count :=
                    Z.of_nat (neighbours df w (Cycle_Date r)) |}) df).
Proof.
  unfold annotate_clusters.
  rewrite cluster_flags_eq, cluster_counts_eq, map_map.
  apply (assign_columns_map
           (fun r => cluster_label
                       (2 <=? Z.of_nat (neighbours df w (Cycle_Date r)))%Z)
           (fun r => Z.of_nat (neighbours df w (Cycle_Date r)))).
Qed.

(** C3: the annotation succeeds on every table, keeps its rows, and the
    count of each row is the number of rows of the table (itself
    included) whose date is within the window of its own date.  The
    count is taken row by row and not by merging chains: of four rows
    spaced by exactly the window, the two inner rows count three rows
    and the two outer rows count two, though the chain links all four. *)
Theorem cluster_count_pairwise (df : list row) (window_days : Z) :
  exists out,
    annotate_clusters df window_days = Some out /\
    map projection out = df /\
    (forall i a,
        nth_error out i = Some a ->
        Cluster_Count a =
        Z.of_nat
          (length
             (filter
                (fun r =>
                   (Z.abs (Cycle_Date (projection a) - Cycle_Date r)
                    <=? window_days)%Z)
                df))) /\
    (forall d w,
        (1 <= w)%Z ->
        option_map (map Cluster_Count)
          (annotate_clusters
             [row_on d; row_on (d + w); row_on (d + 2 * w);
              row_on (d + 3 * w)] w)
        = Some [2; 3; 3; 2]%Z).
Proof.
  eexists. split; [apply annotate_clusters_eq |].
  split; [rewrite map_map; apply map_id |]. split.
  - intros i a Hi. apply nth_error_In, in_map_iff in Hi as (r & <- & _).
    reflexivity.
  - intros d w Hw. rewrite annotate_clusters_eq.
    unfold neighbours, within_window, row_on.
    cbn [option_map map Cluster_Count Cycle_Date filter].
    repeat match goal with
           | |- context [(?a <=? ?b)%Z] =>
               destruct (Z.leb_spec a b); try lia
           end.
    reflexivity.
Qed.

Lemma cluster_count_pairwise_witness :
  option_map (map Cluster_Count)
    (annotate_clusters [row_on 0; row_on 3; row_on 6; row_on 9] 3)
  = Some [2; 3; 3; 2]%Z.
Proof.
  destruct (cluster_count_pairwise [] 3) as (_ & _ & _ & _ & H).
  apply (H 0%Z 3%Z). lia.
Defined.

(** C6: the flag computed by the first loop and the count computed by
    the comprehension agree on every table and window: both loops
    return, the flag of a row is the test [count >= 2] on its count,
    and in the annotated table "Cluster" is "YES" exactly for the rows
    whose "Cluster Count" is at least 2. *)
Theorem cluster_flag_iff_count (df : list row) (cluster_window : Z) :
  exists flags counts out,
    cluster_flags df cluster_window = Some flags /\
    cluster_counts df cluster_window = Some counts /\
    flags = map (fun count => (2 <=? count)%Z) counts /\
    annotate_clusters df cluster_window = Some out /\
    (forall a, In a out ->
       Cluster a = "YES"%string <-> (2 <= Cluster_Count a)%Z).
Proof.
  do 3 eexists.
  split; [apply cluster_flags_eq |].
  split; [apply cluster_counts_eq |].
  split; [now rewrite map_map |].
  split; [apply annotate_clusters_eq |].
  intros a Ha. apply in_map_iff in Ha as (r & <- & _).
  cbn [Cluster Cluster_Count].
  destruct (Z.leb_spec 2 (Z.of_nat (neighbours df cluster_window
                                      (Cycle_Date r)))) as [H | H];
    cbn [cluster_label]; split; intros H'; try lia; try reflexivity.
  discriminate H'.
Qed.

Lemma cluster_flag_iff_count_witness :
  exists flags counts out,
    cluster_flags [row_on 0; row_on 2; row_on 40] 3 = Some flags /\
    cluster_counts [row_on 0; row_on 2; row_on 40] 3 = Some counts /\
    flags = map (fun count => (2 <=? count)%Z) counts /\
    annotate_clusters [row_on 0; row_on 2; row_on 40] 3 = Some out /\
    (forall a, In a out ->
       Cluster a = "YES"%string <-> (2 <= Cluster_Count a)%Z).
Proof.
  exact (cluster_flag_iff_count [row_on 0; row_on 2; row_on 40] 3).
Defined.

(** * Further properties of the cluster annotation *)

Lemma within_window_self (w d : Z) : (0 <= w)%Z -> within_window w d d = true.
Proof. intros Hw. unfold within_window. apply Z.leb_le. lia. Qed.

Lemma within_window_sym (w a b : Z) : within_window w a b = within_window w b a.
Proof.
  unfold within_window. f_equal.
  replace (b - a)%Z with (- (a - b))%Z by lia. now rewrite Z.abs_opp.
Qed.

Lemma within_window_mono (w w' a b : Z) :
  (w <= w')%Z -> within_window w a b = true -> within_window w' a b = true.
Proof. unfold within_window. rewrite !Z.leb_le. lia. Qed.

Lemma neighbours_app df1 df2 w d :
  neighbours (df1 ++ df2) w d = (neighbours df1 w d + neighbours df2 w d)%nat.
Proof. unfold neighbours. now rewrite filter_app, length_app. Qed.

Lemma neighbours_le_length df w d : (neighbours df w d <= length df)%nat.
Proof. unfold neighbours. apply filter_length_le. Qed.

Lemma neighbours_pos df w d :
  (1 <= neighbours df w d)%nat <->
  exists r, In r df /\ within_window w d (Cycle_Date r) = true.
Proof.
  unfold neighbours. split.
  - intros H.
    destruct (filter (fun r => within_window w d (Cycle_Date r)) df)
      as [| r l] eqn:E; [simpl in H; lia |].
    exists r.
    apply (proj1 (filter_In (fun r => within_window w d (Cycle_Date r)) r df)).
    rewrite E. now left.
  - intros (r & Hr & Hw).
    assert (Hin : In r (filter (fun r => within_window w d (Cycle_Date r)) df))
      by (apply filter_In; now split).
    destruct (filter (fun r => within_window w d (Cycle_Date r)) df);
      [contradiction | simpl; lia].
Qed.

Lemma neighbours_perm df df' w d :
  Permutation df df' -> neighbours df w d = neighbours df' w d.
Proof.
  unfold neighbours. induction 1 as [| x l l' _ IH | x y l | l l' l'' _ IH1 _ IH2];
    cbn [filter].
  - reflexivity.
  - destruct (within_window w d (Cycle_Date x)); cbn [length]; now rewrite IH.
  - destruct (within_window w d (Cycle_Date x)),
             (within_window w d (Cycle_Date y)); reflexivity.
  - now rewrite IH1.
Qed.

Lemma neighbours_mono df w w' d :
  (w <= w')%Z -> (neighbours df w d <= neighbours df w' d)%nat.
Proof.
  intros Hw. unfold neighbours.
  induction df as [| r df IH]; cbn [filter]; [lia |].
  destruct (within_window w d (Cycle_Date r)) eqn:E.
  - rewrite (within_window_mono w w' _ _ Hw E). cbn [length]. lia.
  - destruct (within_window w' d (Cycle_Date r)); cbn [length]; lia.
Qed.

Lemma neighbours_all df w d :
  (forall r, In r df -> within_window w d (Cycle_Date r) = true) ->
  neighbours df w d = length df.
Proof.
  intros H. unfold neighbours.
  induction df as [| r df IH]; cbn [filter]; [reflexivity |].
  rewrite (H r) by now left. cbn [length]. f_equal.
  apply IH. intros r' Hr'. apply H. now right.
Qed.

(** A row counts at least two rows exactly when a row at another
    position is within the window of it. *)
Lemma neighbours_two df w i r :
  (0 <= w)%Z -> loc df i = Some r ->
  (2 <= neighbours df w (Cycle_Date r))%nat <->
  exists j r', j <> i /\ loc df j = Some r' /\
               within_window w (Cycle_Date r) (Cycle_Date r') = true.
Proof.
  unfold loc. intros Hw Hi.
  destruct (nth_error_split df i Hi) as (l1 & l2 & -> & Hlen).
  rewrite neighbours_app.
  change (r :: l2) with ([r] ++ l2). rewrite neighbours_app.
  assert (Hself : neighbours [r] w (Cycle_Date r) = 1%nat)
    by (unfold neighbours; cbn [filter]; now rewrite within_window_self).
  rewrite Hself. split.
  - intros H.
    assert (H' : (1 <= neighbours l1 w (Cycle_Date r))%nat
                 \/ (1 <= neighbours l2 w (Cycle_Date r))%nat) by lia.
    destruct H' as [H' | H']; apply neighbours_pos in H' as (r' & Hin & Hr');
      apply In_nth_error in Hin as (j & Hj).
    + assert (Hlt : (j < length l1)%nat)
        by (apply nth_error_Some; congruence).
      exists j, r'. split; [lia |]. split; [| assumption].
      now rewrite nth_error_app1.
    + exists (length l1 + S j)%nat, r'. split; [lia |]. split; [| assumption].
      rewrite nth_error_app2 by lia.
      replace (length l1 + S j - length l1)%nat with (S j) by lia.
      exact Hj.
  - intros (j & r' & Hne & Hj & Hr').
    destruct (Nat.lt_ge_cases j (length l1)) as [Hlt | Hge].
    + rewrite nth_error_app1 in Hj by assumption.
      apply nth_error_In in Hj.
      assert (1 <= neighbours l1 w (Cycle_Date r))%nat
        by (apply neighbours_pos; now exists r').
      lia.
    + rewrite nth_error_app2 in Hj by assumption.
      destruct (j - length l1)%nat as [| k] eqn:E; [lia |].
      cbn [app nth_error] in Hj. apply nth_error_In in Hj.
      assert (1 <= neighbours l2 w (Cycle_Date r))%nat
        by (apply neighbours_pos; now exists r').
      lia.
Qed.

Lemma annotate_clusters_map df w :
  annotate_clusters df w = Some (map (annotated df w) df).
Proof. apply annotate_clusters_eq. Qed.

Lemma annotated_yes df w r :
  Cluster (annotated df w r) = "YES"%string <->
  (2 <= neighbours df w (Cycle_Date r))%nat.
Proof.
  unfold annotated. cbn [Cluster].
  destruct (Z.leb_spec 2 (Z.of_nat (neighbours df w (Cycle_Date r))));
    cbn [cluster_label]; split; intros H'; try lia; try reflexivity.
  discriminate H'.
Qed.

Lemma nth_error_annotated df w i t :
  nth_error (map (annotated df w) df) i = Some t ->
  exists r, loc df i = Some r /\ t = annotated df w r.
Proof.
  rewrite nth_error_map. unfold loc.
  destruct (nth_error df i) as [r |]; [| discriminate].
  intros [= <-]. now exists r.
Qed.

(** With a window of at least 0 days (the form allows 1 to 30), every
    row counts itself: its "Cluster Count" is at least 1 and at most
    the number of rows of the table. *)
Theorem cluster_count_bounds (df : list row) (cluster_window : Z) :
  (0 <= cluster_window)%Z ->
  exists out,
    annotate_clusters df cluster_window = Some out /\
    forall t, In t out ->
              (1 <= Cluster_Count t <= Z.of_nat (length df))%Z.
Proof.
  intros Hw. eexists. split; [apply annotate_clusters_map |].
  intros t Ht. apply in_map_iff in Ht as (r & <- & Hr).
  cbn [annotated Cluster_Count].
  pose proof (neighbours_le_length df cluster_window (Cycle_Date r)).
  assert (1 <= neighbours df cluster_window (Cycle_Date r))%nat; [| lia].
  apply neighbours_pos. exists r. split; [assumption |].
  now apply within_window_self.
Qed.

Lemma cluster_count_bounds_witness :
  exists out,
    annotate_clusters [row_on 0; row_on 2; row_on 40] 3 = Some out /\
    forall t, In t out -> (1 <= Cluster_Count t <= 3)%Z.
Proof. apply (cluster_count_bounds [row_on 0; row_on 2; row_on 40] 3). lia. Defined.

(** The legend of the "Cluster" column holds: a row is marked "YES"
    exactly when a row at another position of the table has a cycle
    date within the window of its own. *)
Theorem cluster_flag_means_other_row (df : list row) (cluster_window : Z) :
  (0 <= cluster_window)%Z ->
  exists out,
    annotate_clusters df cluster_window = Some out /\
    forall i t,
      nth_error out i = Some t ->
      (Cluster t = "YES"%string <->
       exists j r', j <> i /\ loc df j = Some r' /\
                    (Z.abs (Cycle_Date (projection t) - Cycle_Date r')
                     <= cluster_window)%Z).
Proof.
  intros Hw. eexists. split; [apply annotate_clusters_map |].
  intros i t Ht. apply nth_error_annotated in Ht as (r & Hr & ->).
  rewrite annotated_yes, (neighbours_two df cluster_window i r Hw Hr).
  cbn [annotated projection]. unfold within_window.
  split; intros (j & r' & Hne & Hj & Hin); exists j, r';
    (split; [assumption |]); (split; [assumption |]);
    now apply Z.leb_le.
Qed.

Lemma cluster_flag_means_other_row_witness :
  exists out,
    annotate_clusters [row_on 0; row_on 2; row_on 40] 3 = Some out /\
    forall i t,
      nth_error out i = Some t ->
      (Cluster t = "YES"%string <->
       exists j r', j <> i /\ loc [row_on 0; row_on 2; row_on 40] j = Some r' /\
                    (Z.abs (Cycle_Date (projection t) - Cycle_Date r') <= 3)%Z).
Proof.
  apply (cluster_flag_means_other_row [row_on 0; row_on 2; row_on 40] 3). lia.
Defined.

(** No cluster has a single member: a row marked "YES" has, at another
    position and within the window of its date, a row that is marked
    "YES" as well. *)
Theorem clustered_rows_have_partner (df : list row) (cluster_window : Z) :
  (0 <= cluster_window)%Z ->
  exists out,
    annotate_clusters df cluster_window = Some out /\
    forall i t,
      nth_error out i = Some t -> Cluster t = "YES"%string ->
      exists j t',
        j <> i /\ nth_error out j = Some t' /\ Cluster t' = "YES"%string /\
        (Z.abs (Cycle_Date (projection t) - Cycle_Date (projection t'))
         <= cluster_window)%Z.
Proof.
  intros Hw. eexists. split; [apply annotate_clusters_map |].
  intros i t Ht Hyes. apply nth_error_annotated in Ht as (r & Hr & ->).
  apply annotated_yes in Hyes.
  apply (neighbours_two df cluster_window i r Hw Hr) in Hyes
    as (j & r' & Hne & Hj & Hin).
  exists j, (annotated df cluster_window r').
  split; [assumption |]. split.
  - rewrite nth_error_map. unfold loc in Hj. now rewrite Hj.
  - split.
    + apply annotated_yes.
      apply (neighbours_two df cluster_window j r' Hw Hj).
      exists i, r. split; [congruence |]. split; [assumption |].
      now rewrite within_window_sym.
    + cbn [annotated projection]. unfold within_window in Hin.
      now apply Z.leb_le.
Qed.

Lemma clustered_rows_have_partner_witness :
  exists out,
    annotate_clusters [row_on 0; row_on 2; row_on 40] 3 = Some out /\
    forall i t,
      nth_error out i = Some t -> Cluster t = "YES"%string ->
      exists j t',
        j <> i /\ nth_error out j = Some t' /\ Cluster t' = "YES"%string /\
        (Z.abs (Cycle_Date (projection t) - Cycle_Date (projection t')) <= 3)%Z.
Proof.
  apply (clustered_rows_have_partner [row_on 0; row_on 2; row_on 40] 3). lia.
Defined.

(** Widening the window never loses a cluster: row by row, the count
    under the wider window is at least the count under the narrower
    one, and a row marked "YES" stays marked. *)
Theorem wider_window_keeps_clusters (df : list row) (w w' : Z) :
  (w <= w')%Z ->
  exists out out',
    annotate_clusters df w = Some out /\
    annotate_clusters df w' = Some out' /\
    forall i t t',
      nth_error out i = Some t -> nth_error out' i = Some t' ->
      projection t = projection t' /\
      (Cluster_Count t <= Cluster_Count t')%Z /\
      (Cluster t = "YES"%string -> Cluster t' = "YES"%string).
Proof.
  intros Hw. do 2 eexists.
  split; [apply annotate_clusters_map |].
  split; [apply annotate_clusters_map |].
  intros i t t' Ht Ht'.
  apply nth_error_annotated in Ht as (r & Hr & ->).
  apply nth_error_annotated in Ht' as (r' & Hr' & ->).
  assert (r' = r) by congruence. subst r'.
  pose proof (neighbours_mono df w w' (Cycle_Date r) Hw) as Hm.
  split; [reflexivity |]. split.
  - cbn [annotated Cluster_Count]. lia.
  - rewrite !annotated_yes. lia.
Qed.

Lemma wider_window_keeps_clusters_witness :
  exists out out',
    annotate_clusters [row_on 0; row_on 2; row_on 5] 1 = Some out /\
    annotate_clusters [row_on 0; row_on 2; row_on 5] 3 = Some out' /\
    forall i t t',
      nth_error out i = Some t -> nth_error out' i = Some t' ->
      projection t = projection t' /\
      (Cluster_Count t <= Cluster_Count t')%Z /\
      (Cluster t = "YES"%string -> Cluster t' = "YES"%string).
Proof.
  apply (wider_window_keeps_clusters [row_on 0; row_on 2; row_on 5] 1 3). lia.
Defined.

(** A window that covers the whole span of dates puts every row in one
    cluster: each count is the number of rows, and with two rows or more
    every row is marked "YES". *)
Theorem window_over_span (df : list row) (cluster_window : Z) :
  (forall r1 r2, In r1 df -> In r2 df ->
                 (Z.abs (Cycle_Date r1 - Cycle_Date r2) <= cluster_window)%Z) ->
  exists out,
    annotate_clusters df cluster_window = Some out /\
    forall t, In t out ->
              Cluster_Count t = Z.of_nat (length df) /\
              ((2 <= length df)%nat -> Cluster t = "YES"%string).
Proof.
  intros Hspan. eexists. split; [apply annotate_clusters_map |].
  intros t Ht. apply in_map_iff in Ht as (r & <- & Hr).
  assert (E : neighbours df cluster_window (Cycle_Date r) = length df).
  { apply neighbours_all. intros r' Hr'. unfold within_window.
    apply Z.leb_le. now apply Hspan. }
  split.
  - cbn [annotated Cluster_Count]. now rewrite E.
  - intros Hn. apply annotated_yes. lia.
Qed.

Lemma window_over_span_witness :
  exists out,
    annotate_clusters [row_on 0; row_on 2; row_on 5] 5 = Some out /\
    forall t, In t out ->
              Cluster_Count t = 3%Z /\
              ((2 <= 3)%nat -> Cluster t = "YES"%string).
Proof.
  apply (window_over_span [row_on 0; row_on 2; row_on 5] 5).
  intros r1 r2 [<- | [<- | [<- | []]]] [<- | [<- | [<- | []]]];
    cbn [row_on Cycle_Date]; lia.
Defined.


(** * Further properties of the projection *)

Lemma scaled_small (p : R) :
  0 <= p < 100000 -> 0 <= fst (scale_price p) < 1000.
Proof.
  intros Hp. unfold scale_price. cbn [fst].
  repeat match goal with
         | |- context [Rge_dec ?a ?b] => destruct (Rge_dec a b)
         end; lra.
Qed.

Lemma scaled_sign (p : R) : 0 <= p -> 0 <= fst (scale_price p).
Proof.
  intros Hp. unfold scale_price. cbn [fst].
  repeat match goal with
         | |- context [Rge_dec ?a ?b] => destruct (Rge_dec a b)
         end; lra.
Qed.

Lemma projection_near np_sin (s : swing) (p : R) (a : Z) :
  -1 / 2 <=
    IZR (Days (projection_of np_sin s p a))
    - fst (scale_price p) * np_sin (IZR a * PI / 180) <= 1 / 2.
Proof. unfold projection_of. cbn [Days]. apply py_round_near. Qed.

Lemma projection_bounded np_sin (s : swing) (p : R) (a : Z) :
  np_sin_contract np_sin ->
  0 <= p < 100000 ->
  (-1000 <= Days (projection_of np_sin s p a) <= 1000)%Z.
Proof.
  intros Hsin Hp. pose proof (scaled_small p Hp) as Hs.
  pose proof (np_sin_bounded np_sin Hsin (IZR a * PI / 180)) as Hb.
  unfold projection_of. cbn [Days].
  apply py_round_between. split; nra.
Qed.

Lemma projection_forward np_sin (s : swing) (p : R) (a : Z) :
  np_sin_contract np_sin ->
  0 <= p -> In a all_gann_angles ->
  (0 <= Days (projection_of np_sin s p a))%Z.
Proof.
  intros Hsin Hp Ha. unfold projection_of. cbn [Days].
  pose proof (py_round_near (fst (scale_price p)
                             * np_sin (IZR a * PI / 180))) as [Hn _].
  assert (Hpos : 0 <= fst (scale_price p) * np_sin (IZR a * PI / 180)).
  { apply Rmult_le_pos; [now apply scaled_sign |].
    rewrite <- deg2rad_div. now apply (np_sin_offered np_sin Hsin). }
  assert (Hlt : (-1 < py_round (fst (scale_price p)
                                * np_sin (IZR a * PI / 180))%R)%Z); [| lia].
  apply lt_IZR. lra.
Qed.

(** Every row records a nearest whole number of days: its "Days" is
    off from [scaled * np.sin(angle)], computed from its own "Price" and
    "Angle" columns, by at most half a day; its "Cycle Date" is the
    date of the swing it is named after moved by exactly "Days", and it
    is a date of the years 1 to 9999. *)
Theorem day_offset_nearest
  (np_sin : R -> R) (swings : list swing) (angles : list Z)
  (rows : list row) (r : row) :
  compute_cycles np_sin swings angles = Some rows ->
  In r rows ->
  -1 / 2 <=
    IZR (Days r)
    - fst (scale_price (Price r)) * np_sin (Angle r * PI / 180)
    <= 1 / 2 /\
  (exists s, In s swings /\ name s = Swing r /\ price s = Some (Price r) /\
             Cycle_Date r = (toordinal (date s) + Days r)%Z) /\
  (1 <= Cycle_Date r <= 3652059)%Z.
Proof.
  intros Hrows Hr.
  assert (Hrep : representable r = true).
  { pose proof Hrows as E. rewrite compute_cycles_emission in E.
    destruct (forallb representable (emission np_sin swings angles)) eqn:F;
      [| discriminate].
    injection E as <-. rewrite forallb_forall in F. now apply F. }
  apply (in_compute_cycles _ _ _ _ _ Hrows) in Hr
    as (s & p & a & Hs & Hp & _ & ->).
  split; [apply projection_near |]. split.
  - exists s. repeat split; assumption.
  - unfold representable in Hrep. apply andb_true_iff in Hrep as [_ Hrep].
    now apply in_date_range_iff in Hrep.
Qed.

Lemma day_offset_nearest_witness :
  -1 / 2 <=
    IZR (Days (projection_of sin64 swing_1 210 90))
    - fst (scale_price (Price (projection_of sin64 swing_1 210 90)))
      * sin64 (Angle (projection_of sin64 swing_1 210 90) * PI / 180)
    <= 1 / 2 /\
  (exists s, In s [swing_1] /\
             name s = Swing (projection_of sin64 swing_1 210 90) /\
             price s = Some (Price (projection_of sin64 swing_1 210 90)) /\
             Cycle_Date (projection_of sin64 swing_1 210 90) =
               (toordinal (date s)
                + Days (projection_of sin64 swing_1 210 90))%Z) /\
  (1 <= Cycle_Date (projection_of sin64 swing_1 210 90) <= 3652059)%Z.
Proof.
  apply (day_offset_nearest sin64 [swing_1] [90]%Z
           [projection_of sin64 swing_1 210 90]).
  - rewrite (compute_cycles_single sin64 swing_1 210 90 _ eq_refl eq_refl).
    rewrite (projection_210_at_90 sin64 swing_1 sin64_contract).
    reflexivity.
  - now left.
Defined.

(** The practical horizon: when every price entered lies from 0 up to
    (not including) 100000, the scaled prices are below 1000 and every
    row, whatever its angle, has an offset of at most 1000 days either
    way. *)
Theorem projection_horizon
  (np_sin : R -> R) (swings : list swing) (angles : list Z)
  (rows : list row) :
  np_sin_contract np_sin ->
  (forall s p, In s swings -> price s = Some p -> 0 <= p < 100000) ->
  compute_cycles np_sin swings angles = Some rows ->
  forall r, In r rows -> (-1000 <= Days r <= 1000)%Z.
Proof.
  intros Hsin Hprices Hrows r Hr.
  apply (in_compute_cycles _ _ _ _ _ Hrows) in Hr
    as (s & p & a & Hs & Hp & _ & ->).
  apply projection_bounded; [assumption |]. now apply (Hprices s).
Qed.

Lemma projection_horizon_witness :
  (-1000 <= Days (projection_of sin64 swing_1 210 90) <= 1000)%Z.
Proof.
  apply (projection_horizon sin64 [swing_1] [90]%Z
           [projection_of sin64 swing_1 210 90]).
  - exact sin64_contract.
  - intros s p [<- | []] [= <-]. lra.
  - rewrite (compute_cycles_single sin64 swing_1 210 90 _ eq_refl eq_refl).
    rewrite (projection_210_at_90 sin64 swing_1 sin64_contract).
    reflexivity.
  - now left.
Defined.

(** With angles taken from those the form offers, swings of
    non-negative price are never projected into the past: every row has
    an offset of at least 0. *)
Theorem offered_angles_project_forward
  (np_sin : R -> R) (swings : list swing) (angles : list Z)
  (rows : list row) :
  np_sin_contract np_sin ->
  (forall s p, In s swings -> price s = Some p -> 0 <= p) ->
  (forall a, In a angles -> In a all_gann_angles) ->
  compute_cycles np_sin swings angles = Some rows ->
  forall r, In r rows -> (0 <= Days r)%Z.
Proof.
  intros Hsin Hprices Hangles Hrows r Hr.
  apply (in_compute_cycles _ _ _ _ _ Hrows) in Hr
    as (s & p & a & Hs & Hp & Ha & ->).
  apply projection_forward; [assumption | now apply (Hprices s) |].
  now apply Hangles.
Qed.

Lemma offered_angles_project_forward_witness :
  (0 <= Days (projection_of sin64 swing_1 210 90))%Z.
Proof.
  apply (offered_angles_project_forward sin64 [swing_1] [90]%Z
           [projection_of sin64 swing_1 210 90]).
  - exact sin64_contract.
  - intros s p [<- | []] [= <-]. lra.
  - intros a [<- | []]. unfold all_gann_angles. simpl. tauto.
  - rewrite (compute_cycles_single sin64 swing_1 210 90 _ eq_refl eq_refl).
    rewrite (projection_210_at_90 sin64 swing_1 sin64_contract).
    reflexivity.
  - now left.
Defined.

(** * Further properties of the scaler and of the "Scaled Price" column *)

(** Scaling never enlarges a non-negative price and leaves prices below
    500 (negative ones included) untouched; from 500 up to 100000 the
    scaled price lies between 50 and 1000, and from 100000 on it is a
    3000th of the price, hence at least 100/3. *)
Theorem scaled_price_range (p : R) :
  (0 <= p -> 0 <= fst (scale_price p) <= p) /\
  (p < 500 -> fst (scale_price p) = p) /\
  (500 <= p < 100000 -> 50 <= fst (scale_price p) < 1000) /\
  (100000 <= p -> 100 / 3 <= fst (scale_price p)).
Proof.
  unfold scale_price. cbn [fst].
  repeat split; intros;
    repeat match goal with
           | |- context [Rge_dec ?a ?b] => destruct (Rge_dec a b)
           end; lra.
Qed.

Lemma scaled_price_range_witness :
  50 <= fst (scale_price 26000) < 1000.
Proof.
  destruct (scaled_price_range 26000) as (_ & _ & H & _). apply H. lra.
Defined.

Lemma py_round_ndigits_near (x : R) :
  Rabs (py_round_ndigits x 6 - x) <= 1 / 2000000.
Proof.
  unfold py_round_ndigits.
  pose proof (py_round_near (x * 10 ^ 6)) as [H1 H2].
  assert (E : 10 ^ 6 = 1000000) by (simpl; lra).
  rewrite E in *.
  apply Rabs_le. split; lra.
Qed.


(** The "Scaled Price" column shows the scaled price to six decimals:
    in every row it differs from the scaled price of the row's "Price"
    by at most half a millionth, and the "Divisor" column is the divisor
    chosen for that price. *)
Theorem scaled_price_column
  (np_sin : R -> R) (swings : list swing) (angles : list Z)
  (rows : list row) (r : row) :
  compute_cycles np_sin swings angles = Some rows ->
  In r rows ->
  Rabs (Scaled_Price r - fst (scale_price (Price r))) <= 1 / 2000000 /\
  Divisor r = snd (scale_price (Price r)).
Proof.
  intros Hrows Hr.
  apply (in_compute_cycles _ _ _ _ _ Hrows) in Hr
    as (s & p & a & _ & _ & _ & ->).
  cbn [projection_of Scaled_Price Price Divisor].
  split; [apply py_round_ndigits_near | reflexivity].
Qed.

Lemma scaled_price_column_witness :
  Rabs (Scaled_Price (projection_of sin64 swing_1 210 90)
        - fst (scale_price (Price (projection_of sin64 swing_1 210 90))))
    <= 1 / 2000000 /\
  Divisor (projection_of sin64 swing_1 210 90) =
    snd (scale_price (Price (projection_of sin64 swing_1 210 90))).
Proof.
  apply (scaled_price_column sin64 [swing_1] [90]%Z
           [projection_of sin64 swing_1 210 90]).
  - rewrite (compute_cycles_single sin64 swing_1 210 90 _ eq_refl eq_refl).
    rewrite (projection_210_at_90 sin64 swing_1 sin64_contract).
    reflexivity.
  - now left.
Defined.

(** * The script as a whole *)

Lemma annotated_perm df df' w r :
  Permutation df df' -> annotated df w r = annotated df' w r.
Proof.
  intros Hp. unfold annotated.
  now rewrite (neighbours_perm df df' w (Cycle_Date r) Hp).
Qed.

(** The order in which the sort leaves rows of equal date does not
    change what is reported about any row: whenever the projection loop
    returns, two sorts that meet the contract of [sort_values] give the
    same annotated rows, up to their order in the table, and each count
    is the number of emitted rows within the window. *)
Theorem annotation_independent_of_tie_order
  (np_sin : R -> R) (sort1 sort2 : list row -> list row)
  (swings : list swing) (angles : list Z) (cluster_window : Z)
  (rows : list row) :
  sort_values_contract sort1 -> sort_values_contract sort2 ->
  compute_cycles np_sin swings angles = Some rows ->
  exists df1 df2 out1 out2,
    project np_sin sort1 swings angles = Some df1 /\
    project np_sin sort2 swings angles = Some df2 /\
    annotate_clusters df1 cluster_window = Some out1 /\
    annotate_clusters df2 cluster_window = Some out2 /\
    Permutation out1 out2 /\
    forall t, In t out1 ->
      Cluster_Count t =
      Z.of_nat (neighbours rows cluster_window (Cycle_Date (projection t))).
Proof.
  intros H1 H2 Hrows. unfold project. rewrite Hrows.
  destruct (H1 rows) as [P1 _]. destruct (H2 rows) as [P2 _].
  do 4 eexists.
  split; [reflexivity |]. split; [reflexivity |].
  split; [apply annotate_clusters_map |].
  split; [apply annotate_clusters_map |]. split.
  - rewrite (map_ext (annotated (sort1 rows) cluster_window)
               (annotated rows cluster_window))
      by (intros r; apply annotated_perm; now symmetry).
    rewrite (map_ext (annotated (sort2 rows) cluster_window)
               (annotated rows cluster_window))
      by (intros r; apply annotated_perm; now symmetry).
    apply Permutation_map. now rewrite <- P1.
  - intros t Ht. apply in_map_iff in Ht as (r & <- & _).
    cbn [annotated Cluster_Count projection]. f_equal.
    apply neighbours_perm. now symmetry.
Qed.

Lemma compute_cycles_same_date np_sin :
  np_sin_contract np_sin ->
  compute_cycles np_sin [swing_1; swing_2_same] [90]%Z =
  Some
    [ {| Swing := "Swing 1"; Price := 210; Scaled_Price := 210; Divisor := 1;
         Angle := 90; Days := 210; Cycle_Date := ymd2ord 2025 11 3 |};
      {| Swing := "Swing 2"; Price := 210; Scaled_Price := 210; Divisor := 1;
         Angle := 90; Days := 210; Cycle_Date := ymd2ord 2025 11 3 |} ].
Proof.
  intros Hsin. rewrite compute_cycles_emission. unfold emission.
  cbn [flat_map map swing_1 swing_2_same price app].
  rewrite !(projection_210_at_90 np_sin _ Hsin). reflexivity.
Qed.

Lemma annotation_independent_of_tie_order_witness :
  exists df1 df2 out1 out2,
    project sin64 stable_sort_values [swing_1; swing_2_same] [90]%Z
      = Some df1 /\
    project sin64 reversing_sort_values [swing_1; swing_2_same] [90]%Z
      = Some df2 /\
    annotate_clusters df1 3 = Some out1 /\
    annotate_clusters df2 3 = Some out2 /\
    Permutation out1 out2 /\
    forall t, In t out1 ->
      Cluster_Count t =
      Z.of_nat
        (neighbours
           [ {| Swing := "Swing 1"; Price := 210; Scaled_Price := 210;
                Divisor := 1; Angle := 90; Days := 210;
                Cycle_Date := ymd2ord 2025 11 3 |};
             {| Swing := "Swing 2"; Price := 210; Scaled_Price := 210;
                Divisor := 1; Angle := 90; Days := 210;
                Cycle_Date := ymd2ord 2025 11 3 |} ]
           3 (Cycle_Date (projection t))).
Proof.
  apply (annotation_independent_of_tie_order sin64
           stable_sort_values reversing_sort_values
           [swing_1; swing_2_same] [90]%Z 3).
  - exact stable_sort_values_contract.
  - exact reversing_sort_values_contract.
  - exact (compute_cycles_same_date sin64 sin64_contract).
Defined.

Lemma analyze_table np_sin sort_values swings angles w rows :
  angles <> [] ->
  compute_cycles np_sin swings angles = Some rows -> rows <> [] ->
  analyze np_sin sort_values swings angles w =
  Table (map (annotated (sort_values rows) w) (sort_values rows)).
Proof.
  intros Ha Hrows Hr. unfold analyze.
  destruct angles as [| a angles]; [contradiction |].
  rewrite Hrows. destruct rows as [| r rows]; [contradiction |].
  cbn [length Nat.eqb]. now rewrite annotate_clusters_map.
Qed.

Lemma analyze_table_inv np_sin sort_values swings angles w df :
  analyze np_sin sort_values swings angles w = Table df ->
  exists rows,
    compute_cycles np_sin swings angles = Some rows /\
    df = map (annotated (sort_values rows) w) (sort_values rows).
Proof.
  unfold analyze. destruct angles as [| a angles]; [discriminate |].
  destruct (compute_cycles np_sin swings (a :: angles)) as [rows |];
    [| discriminate].
  destruct (length rows =? 0)%nat; [discriminate |].
  rewrite annotate_clusters_map. intros [= <-]. now exists rows.
Qed.

Lemma raising_row np_sin swings angles :
  compute_cycles np_sin swings angles = None <->
  exists s p a,
    In s swings /\ price s = Some p /\ In a angles /\
    representable (projection_of np_sin s p a) = false.
Proof.
  rewrite compute_cycles_emission.
  destruct (forallb representable (emission np_sin swings angles)) eqn:E.
  - split; [discriminate |].
    intros (s & p & a & Hs & Hp & Ha & Hr). exfalso.
    rewrite forallb_forall in E.
    assert (Hin : In (projection_of np_sin s p a)
                     (emission np_sin swings angles))
      by (apply in_emission; now exists s, p, a).
    rewrite (E _ Hin) in Hr. discriminate.
  - split; [| reflexivity]. intros _.
    assert (Hex : exists r, In r (emission np_sin swings angles)
                            /\ representable r = false).
    { clear -E. induction (emission np_sin swings angles) as [| r l IH];
        [discriminate |].
      cbn [forallb] in E. destruct (representable r) eqn:Er.
      - destruct (IH E) as (r' & Hin & Hr'). exists r'. split;
          [now right | assumption].
      - exists r. split; [now left | assumption]. }
    destruct Hex as (r & Hin & Hr).
    apply in_emission in Hin as (s & p & a & Hs & Hp & Ha & ->).
    now exists s, p, a.
Qed.



Lemma modest_projection_representable np_sin s p a :
  np_sin_contract np_sin ->
  0 <= p < 100000 ->
  (1001 <= toordinal (date s) <= 3651059)%Z ->
  representable (projection_of np_sin s p a) = true.
Proof.
  intros Hsin Hp Hd.
  pose proof (projection_bounded np_sin s p a Hsin Hp) as Hb.
  unfold representable.
  change (Cycle_Date (projection_of np_sin s p a))
    with (toordinal (date s) + Days (projection_of np_sin s p a))%Z.
  apply andb_true_iff. split.
  - apply Z.leb_le. lia.
  - apply in_date_range_iff. unfold MAXORDINAL. lia.
Qed.

(** The swings of the form always carry a price, so with at least one
    angle selected the "no swing data" stop is never taken: the script
    either raises [OverflowError] or reaches the table, which then has
    three rows per selected angle, the number the closing line reports
    for 3 swings.  It reaches the table whenever the three prices lie
    from 0 up to (not including) 100000 and the three dates between
    0003-09-28 and 9997-04-05 (ordinals 1001 to 3651059). *)
Theorem form_always_reaches_table
  (np_sin : R -> R) (sort_values : list row -> list row)
  (sort_annotated : list arow -> list arow)
  (p1 p2 p3 : R) (d1 d2 d3 : datetime) (angles : list Z)
  (cluster_window : Z) :
  np_sin_contract np_sin ->
  sort_values_contract sort_values ->
  angles <> [] ->
  let swings := form_swings p1 d1 p2 d2 p3 d3 in
  let table_with_three_rows_per_angle :=
    exists df,
      analyze np_sin sort_values swings angles cluster_window = Table df /\
      length df = (3 * length angles)%nat /\
      fst (summary sort_annotated df swings angles)
        = ((3 * length angles)%nat, 3%nat, length angles) in
  (analyze np_sin sort_values swings angles cluster_window = Raised \/
   table_with_three_rows_per_angle) /\
  ((forall s p, In s swings -> price s = Some p ->
                0 <= p < 100000 /\
                (1001 <= toordinal (date s) <= 3651059)%Z) ->
   table_with_three_rows_per_angle).
Proof.
  intros Hsin Hsort Ha swings table.
  assert (Hreach : forall rows,
             compute_cycles np_sin swings angles = Some rows -> table).
  { intros rows Hrows.
    assert (Hlen : length rows = (3 * length angles)%nat).
    { rewrite (compute_cycles_returns _ _ _ _ Hrows).
      now rewrite emission_length. }
    assert (Hne : rows <> []).
    { intros ->. cbn [length] in Hlen. destruct angles; [contradiction |].
      simpl in Hlen. lia. }
    assert (E : length (map (annotated (sort_values rows) cluster_window)
                          (sort_values rows)) = (3 * length angles)%nat).
    { rewrite length_map. destruct (Hsort rows) as [Hp _].
      now rewrite <- (Permutation_length Hp). }
    eexists. split; [apply (analyze_table _ _ _ _ _ rows); assumption |].
    split; [exact E |].
    unfold summary. cbn [fst]. now rewrite E. }
  split.
  - destruct (compute_cycles np_sin swings angles) as [rows |] eqn:E.
    + right. now apply (Hreach rows).
    + left. unfold analyze. destruct angles; [contradiction |].
      now rewrite E.
  - intros Hmodest.
    destruct (compute_cycles np_sin swings angles) as [rows |] eqn:E;
      [now apply (Hreach rows) |].
    exfalso. apply raising_row in E as (s & p & a & Hs & Hp & _ & Hr).
    destruct (Hmodest s p Hs Hp) as [Hprice Hdate].
    now rewrite modest_projection_representable in Hr.
Qed.

Lemma form_always_reaches_table_witness :
  exists df,
    analyze sin64 stable_sort_values
      (form_swings 210 date_2025_04_07 235 date_2025_05_09
         198 date_2025_06_15) default_angles 3
      = Table df /\
    length df = (3 * length default_angles)%nat /\
    fst (summary stable_sort_annotated df
           (form_swings 210 date_2025_04_07 235 date_2025_05_09
              198 date_2025_06_15) default_angles)
      = ((3 * length default_angles)%nat, 3%nat, length default_angles).
Proof.
  apply (form_always_reaches_table sin64 stable_sort_values
           stable_sort_annotated 210 235 198
           date_2025_04_07 date_2025_05_09 date_2025_06_15
           default_angles 3).
  - exact sin64_contract.
  - exact stable_sort_values_contract.
  - discriminate.
  - intros s p [<- | [<- | [<- | []]]] [= <-];
      (split; [lra | vm_compute; split; discriminate]).
Defined.

Lemma two_members {A : Type} (x y : A) (l : list A) :
  In x l -> In y l -> x <> y -> (2 <= length l)%nat.
Proof.
  intros Hx Hy Hne. apply in_split in Hx as (l1 & l2 & ->).
  rewrite length_app. cbn [length].
  apply in_app_or in Hy as [Hy | [Hy | Hy]].
  - destruct l1; [contradiction | cbn [length]; lia].
  - congruence.
  - destruct l2; [contradiction | cbn [length]; lia].
Qed.

(** A cluster need not span two swings: a swing whose price is 0 is
    projected onto its anchor date at every angle, so as soon as two
    angles are selected all its rows are marked "YES", whatever the
    other swings and whatever the window (of at least 0 days). *)
Theorem zero_price_swing_clusters
  (np_sin : R -> R) (sort_values : list row -> list row)
  (swings : list swing) (angles : list Z) (cluster_window : Z)
  (s : swing) (a1 a2 : Z) (df : list arow) :
  sort_values_contract sort_values ->
  (0 <= cluster_window)%Z ->
  In s swings -> price s = Some 0 ->
  In a1 angles -> In a2 angles -> a1 <> a2 ->
  analyze np_sin sort_values swings angles cluster_window = Table df ->
  forall a, In a angles ->
    (exists t, In t df /\ projection t = projection_of np_sin s 0 a) /\
    (forall t, In t df ->
               projection t = projection_of np_sin s 0 a ->
               Cluster t = "YES"%string /\
               Cycle_Date (projection t) = toordinal (date s)).
Proof.
  intros Hsort Hw Hs Hp Ha1 Ha2 Hne Htable a Ha.
  apply analyze_table_inv in Htable as (rows & Hrows & ->).
  destruct (Hsort rows) as [Hperm _].
  assert (Hin : forall b, In b angles ->
                          In (projection_of np_sin s 0 b) (sort_values rows)).
  { intros b Hb. apply (Permutation_in _ Hperm).
    now apply (projection_emitted np_sin swings angles). }
  assert (Hdate : forall b,
             Cycle_Date (projection_of np_sin s 0 b) = toordinal (date s)).
  { intros b. apply projection_no_offset.
    rewrite scale_price_0. cbn [fst]. rewrite Rmult_0_l. apply py_round_0. }
  assert (Hdiff : projection_of np_sin s 0 a1 <> projection_of np_sin s 0 a2).
  { intros E. apply (f_equal Angle) in E. cbn [projection_of Angle] in E.
    apply eq_IZR in E. contradiction. }
  split.
  - eexists. split; [apply in_map; exact (Hin a Ha) | reflexivity].
  - intros t Ht Hproj. apply in_map_iff in Ht as (r & <- & Hr).
    cbn [annotated projection] in Hproj. subst r.
    split; [| apply Hdate].
    apply annotated_yes. unfold neighbours.
    apply (two_members (projection_of np_sin s 0 a1)
             (projection_of np_sin s 0 a2));
      [| | assumption]; apply filter_In;
      (split; [now apply Hin |]);
      rewrite !Hdate; now apply within_window_self.
Qed.

Lemma zero_price_swing_clusters_witness :
  exists df,
    analyze sin64 stable_sort_values [swing_zero] [15; 90]%Z 0 = Table df /\
    (exists t, In t df /\ projection t = projection_of sin64 swing_zero 0 15) /\
    (forall t, In t df ->
               projection t = projection_of sin64 swing_zero 0 15 ->
               Cluster t = "YES"%string /\
               Cycle_Date (projection t) = toordinal (date swing_zero)).
Proof.
  assert (E : analyze sin64 stable_sort_values [swing_zero] [15; 90]%Z 0 =
              Table (map (annotated
                            (stable_sort_values
                               (map (projection_of sin64 swing_zero 0)
                                  [15; 90]%Z)) 0)
                       (stable_sort_values
                          (map (projection_of sin64 swing_zero 0)
                             [15; 90]%Z)))).
  { apply analyze_table; [discriminate | | discriminate].
    now apply zero_price_rows. }
  eexists. split; [exact E |].
  apply (zero_price_swing_clusters sin64 stable_sort_values [swing_zero]
           [15; 90]%Z 0 swing_zero 15 90 _ stable_sort_values_contract).
  - lia.
  - now left.
  - reflexivity.
  - simpl. tauto.
  - simpl. tauto.
  - discriminate.
  - exact E.
  - simpl. tauto.
Defined.

(** ** The views of the table *)

Lemma insert_annotated_perm t l : Permutation (t :: l) (insert_annotated t l).
Proof.
  induction l as [| x l IH]; simpl; [reflexivity |].
  destruct (Cycle_Date (projection t) <=? Cycle_Date (projection x))%Z;
    [reflexivity |].
  rewrite perm_swap. now constructor.
Qed.

Lemma insert_annotated_sorted t l :
  Sorted adate_le l -> Sorted adate_le (insert_annotated t l).
Proof.
  induction 1 as [| x l Hl IH Hx]; simpl; [repeat constructor |].
  destruct (Cycle_Date (projection t) <=? Cycle_Date (projection x))%Z eqn:E.
  - constructor; [now constructor |].
    constructor. unfold adate_le, date_le. lia.
  - constructor; [assumption |].
    destruct l as [| y l]; simpl.
    + constructor. unfold adate_le, date_le. lia.
    + destruct (Cycle_Date (projection t) <=? Cycle_Date (projection y))%Z;
        constructor; [unfold adate_le, date_le; lia | now inversion Hx].
Qed.

Lemma stable_sort_annotated_contract :
  sort_annotated_contract stable_sort_annotated.
Proof.
  intros df. unfold stable_sort_annotated. split.
  - induction df as [| t df IH]; simpl; [reflexivity |].
    rewrite <- insert_annotated_perm. now constructor.
  - induction df as [| t df IH]; simpl; [constructor |].
    now apply insert_annotated_sorted.
Qed.

Lemma is_clustered_count df w r :
  is_clustered (annotated df w r) = true <->
  (2 <= Cluster_Count (annotated df w r))%Z.
Proof.
  unfold is_clustered. rewrite String.eqb_eq, annotated_yes.
  cbn [annotated Cluster_Count]. lia.
Qed.

Lemma cluster_df_perm sort_annotated df :
  sort_annotated_contract sort_annotated ->
  Permutation (filter is_clustered df) (cluster_df sort_annotated df).
Proof.
  intros Hsort. unfold cluster_df.
  destruct (filter is_clustered df) as [| c cs]; [reflexivity |].
  apply Hsort.
Qed.

Lemma in_cluster_df sort_annotated df w t :
  sort_annotated_contract sort_annotated ->
  In t (cluster_df sort_annotated (map (annotated df w) df)) <->
  In t (map (annotated df w) df) /\ (2 <= Cluster_Count t)%Z.
Proof.
  intros Hsort.
  pose proof (cluster_df_perm sort_annotated (map (annotated df w) df) Hsort)
    as Hp.
  split.
  - intros Ht. apply (Permutation_in _ (Permutation_sym Hp)) in Ht.
    apply filter_In in Ht as [Ht Hc]. split; [assumption |].
    apply in_map_iff in Ht as (r & <- & _).
    now apply is_clustered_count.
  - intros [Ht Hc]. apply (Permutation_in _ Hp). apply filter_In.
    split; [assumption |].
    apply in_map_iff in Ht as (r & <- & _).
    now apply is_clustered_count.
Qed.

(** The table of clustered dates holds exactly the rows of the full
    table whose count is at least 2, in ascending order of cycle date;
    it is empty (and the "no clusters" note is shown) exactly when every
    row counts only itself or nothing. *)
Theorem cluster_df_rows
  (sort_annotated : list arow -> list arow) (df : list row)
  (cluster_window : Z) :
  sort_annotated_contract sort_annotated ->
  exists out,
    annotate_clusters df cluster_window = Some out /\
    (forall t, In t (cluster_df sort_annotated out) <->
               In t out /\ (2 <= Cluster_Count t)%Z) /\
    Sorted adate_le (cluster_df sort_annotated out) /\
    (cluster_df sort_annotated out = [] <->
     forall t, In t out -> (Cluster_Count t <= 1)%Z).
Proof.
  intros Hsort. eexists. split; [apply annotate_clusters_map |].
  set (out := map (annotated df cluster_window) df).
  assert (Hin : forall t, In t (cluster_df sort_annotated out) <->
                          In t out /\ (2 <= Cluster_Count t)%Z)
    by (intros t; now apply in_cluster_df).
  split; [exact Hin |]. split.
  - unfold cluster_df. destruct (filter is_clustered out); [constructor |].
    apply Hsort.
  - split.
    + intros E t Ht.
      destruct (Z.le_gt_cases (Cluster_Count t) 1) as [H | H]; [assumption |].
      assert (Hc : In t (cluster_df sort_annotated out))
        by (apply Hin; split; [assumption | lia]).
      rewrite E in Hc. contradiction.
    + intros H.
      destruct (cluster_df sort_annotated out) as [| t l] eqn:E;
        [reflexivity |].
      assert (Ht : In t (t :: l)) by now left.
      apply Hin in Ht as [Ht Hc].
      specialize (H t Ht). lia.
Qed.

Lemma cluster_df_rows_witness :
  exists out,
    annotate_clusters [row_on 0; row_on 2; row_on 40] 3 = Some out /\
    (forall t, In t (cluster_df stable_sort_annotated out) <->
               In t out /\ (2 <= Cluster_Count t)%Z) /\
    Sorted adate_le (cluster_df stable_sort_annotated out) /\
    (cluster_df stable_sort_annotated out = [] <->
     forall t, In t out -> (Cluster_Count t <= 1)%Z).
Proof.
  apply (cluster_df_rows stable_sort_annotated
           [row_on 0; row_on 2; row_on 40] 3).
  exact stable_sort_annotated_contract.
Defined.

Lemma fold_max_spec (l : list Z) (x : Z) :
  (x <= fold_left Z.max l x)%Z /\
  (forall y, In y l -> (y <= fold_left Z.max l x)%Z) /\
  (fold_left Z.max l x = x \/ In (fold_left Z.max l x) l).
Proof.
  revert x. induction l as [| z l IH]; intros x; cbn [fold_left].
  - split; [lia |]. split; [intros y [] | now left].
  - destruct (IH (Z.max x z)) as (H1 & H2 & H3).
    split; [lia |]. split.
    + intros y [<- | Hy]; [lia | now apply H2].
    + destruct H3 as [H3 | H3]; [| right; now right].
      destruct (Z.max_spec x z) as [[_ E] | [_ E]]; rewrite E in *.
      * right. left. now symmetry.
      * now left.
Qed.

Lemma column_max_spec (column : list Z) (m : Z) :
  column_max column = Some m ->
  In m column /\ forall y, In y column -> (y <= m)%Z.
Proof.
  destruct column as [| x xs]; [discriminate |].
  cbn [column_max]. intros [= <-].
  destruct (fold_max_spec xs x) as (H1 & H2 & H3). split.
  - destruct H3 as [-> | H3]; [now left | now right].
  - intros y [<- | Hy]; [assumption | now apply H2].
Qed.

(** The "max cluster size" of the closing note is reported exactly when
    some row counts two rows or more; it is then at least 2, it is the
    count of a row of the table, and no row of the table has a larger
    count. *)
Theorem reported_max_cluster_size
  (sort_annotated : list arow -> list arow) (df : list row)
  (cluster_window : Z) (swings : list swing) (angles : list Z) :
  sort_annotated_contract sort_annotated ->
  exists out,
    annotate_clusters df cluster_window = Some out /\
    (snd (summary sort_annotated out swings angles) = None <->
     forall t, In t out -> (Cluster_Count t <= 1)%Z) /\
    forall m,
      snd (summary sort_annotated out swings angles) = Some m ->
      (2 <= m)%Z /\
      (exists t, In t out /\ Cluster_Count t = m) /\
      forall t, In t out -> (Cluster_Count t <= m)%Z.
Proof.
  intros Hsort. eexists. split; [apply annotate_clusters_map |].
  set (out := map (annotated df cluster_window) df).
  assert (Hin : forall t, In t (cluster_df sort_annotated out) <->
                          In t out /\ (2 <= Cluster_Count t)%Z)
    by (intros t; now apply in_cluster_df).
  unfold summary. cbn [snd]. split.
  - split.
    + intros E t Ht.
      destruct (Z.le_gt_cases (Cluster_Count t) 1) as [H | H]; [assumption |].
      assert (Hc : In t (cluster_df sort_annotated out))
        by (apply Hin; split; [assumption | lia]).
      destruct (cluster_df sort_annotated out); [contradiction | discriminate E].
    + intros H.
      destruct (cluster_df sort_annotated out) as [| t l] eqn:E;
        [reflexivity |].
      assert (Ht : In t (t :: l)) by now left.
      apply Hin in Ht as [Ht Hc]. specialize (H t Ht). lia.
  - intros m Hm. apply column_max_spec in Hm as [Hm Hle].
    apply in_map_iff in Hm as (t & <- & Ht).
    pose proof (proj1 (Hin t) Ht) as [Hout Hc].
    split; [assumption |]. split; [now exists t |].
    intros t' Ht'.
    destruct (Z.le_gt_cases 2 (Cluster_Count t')) as [H | H]; [| lia].
    apply Hle, in_map, Hin. now split.
Qed.

Lemma reported_max_cluster_size_witness :
  exists out,
    annotate_clusters [row_on 0; row_on 2; row_on 40] 3 = Some out /\
    (snd (summary stable_sort_annotated out [swing_1] [90]%Z) = None <->
     forall t, In t out -> (Cluster_Count t <= 1)%Z) /\
    forall m,
      snd (summary stable_sort_annotated out [swing_1] [90]%Z) = Some m ->
      (2 <= m)%Z /\
      (exists t, In t out /\ Cluster_Count t = m) /\
      forall t, In t out -> (Cluster_Count t <= m)%Z.
Proof.
  apply (reported_max_cluster_size stable_sort_annotated
           [row_on 0; row_on 2; row_on 40] 3 [swing_1] [90]%Z).
  exact stable_sort_annotated_contract.
Defined.

Lemma strongly_sorted_app {A : Type} (R : A -> A -> Prop) (l1 l2 : list A) :
  StronglySorted R (l1 ++ l2) ->
  forall x y, In x l1 -> In y l2 -> R x y.
Proof.
  induction l1 as [| z l1 IH]; intros Hs x y Hx Hy; [contradiction |].
  cbn [app] in Hs. apply StronglySorted_inv in Hs as [Hs Hz].
  destruct Hx as [<- | Hx].
  - rewrite Forall_forall in Hz. apply Hz, in_or_app. now right.
  - now apply IH.
Qed.


(** The table shown is a prefix of the full table: with a row limit of
    [n >= 0] it shows the five columns of the first [n] rows (all of
    them when there are fewer), and since the table is sorted these are
    the earliest cycle dates: no row left out is earlier than a row
    shown. *)
Theorem table_shown_earliest
  (sort_values : list row -> list row) (rows : list row)
  (cluster_window max_table_rows : Z) :
  sort_values_contract sort_values ->
  (0 <= max_table_rows)%Z ->
  exists out,
    annotate_clusters (sort_values rows) cluster_window = Some out /\
    table_shown out max_table_rows =
      map displayed_columns (firstn (Z.to_nat max_table_rows) out) /\
    length (table_shown out max_table_rows) =
      Nat.min (Z.to_nat max_table_rows) (length out) /\
    forall t t',
      In t (firstn (Z.to_nat max_table_rows) out) ->
      In t' (skipn (Z.to_nat max_table_rows) out) ->
      (Cycle_Date (projection t) <= Cycle_Date (projection t'))%Z.
Proof.
  intros Hsort Hn. eexists. split; [apply annotate_clusters_map |].
  set (df := sort_values rows).
  assert (E : table_shown (map (annotated df cluster_window) df)
                max_table_rows =
              map displayed_columns
                (firstn (Z.to_nat max_table_rows)
                   (map (annotated df cluster_window) df))).
  { unfold table_shown, head.
    destruct (Z.leb_spec 0 max_table_rows); [apply firstn_map | lia]. }
  split; [exact E |]. split.
  - rewrite E, length_map. apply length_firstn.
  - intros t t'. rewrite firstn_map, skipn_map.
    intros Ht Ht'.
    apply in_map_iff in Ht as (r & <- & Hr).
    apply in_map_iff in Ht' as (r' & <- & Hr').
    cbn [annotated projection].
    assert (Hss : StronglySorted date_le df).
    { apply Sorted_StronglySorted.
      - intros a b c. unfold date_le. lia.
      - apply Hsort. }
    rewrite <- (firstn_skipn (Z.to_nat max_table_rows) df) in Hss.
    exact (strongly_sorted_app date_le _ _ Hss r r' Hr Hr').
Qed.

Lemma table_shown_earliest_witness :
  exists out,
    annotate_clusters
      (stable_sort_values [row_on 9; row_on 2; row_on 40; row_on 5]) 3
      = Some out /\
    table_shown out 2 = map displayed_columns (firstn (Z.to_nat 2) out) /\
    length (table_shown out 2) = Nat.min (Z.to_nat 2) (length out) /\
    forall t t',
      In t (firstn (Z.to_nat 2) out) ->
      In t' (skipn (Z.to_nat 2) out) ->
      (Cycle_Date (projection t) <= Cycle_Date (projection t'))%Z.
Proof.
  apply (table_shown_earliest stable_sort_values
           [row_on 9; row_on 2; row_on 40; row_on 5] 3 2).
  - exact stable_sort_values_contract.
  - lia.
Defined.

(** * The order of rows with equal dates *)

Lemma cell_middle (l : list row) (y : row) (r : list row) :
  cell (l ++ y :: r) (length l) = Some y.
Proof.
  unfold cell. rewrite nth_error_app2 by lia. now rewrite Nat.sub_diag.
Qed.

Lemma store_middle (l : list row) (c x : row) (r : list row) :
  store (l ++ c :: r) (length l) x = l ++ x :: r.
Proof. induction l as [| y l IH]; simpl; [reflexivity | now rewrite IH]. Qed.

Lemma place_snoc_later (x y : row) (l : list row) :
  less x y = true -> place x (l ++ [y]) = place x l ++ [y].
Proof.
  intros H. induction l as [| z l IH]; simpl.
  - now rewrite H.
  - destruct (less x z); [reflexivity | now rewrite IH].
Qed.

Lemma place_last (x : row) (l : list row) :
  (forall z, In z l -> less x z = false) -> place x l = l ++ [x].
Proof.
  induction l as [| z l IH]; intros H; simpl; [reflexivity |].
  rewrite (H z) by now left. rewrite IH; [reflexivity |].
  intros z' Hz'. apply H. now right.
Qed.

Lemma sorted_snoc_bound (l : list row) (y z : row) :
  StronglySorted date_le (l ++ [y]) -> In z (l ++ [y]) -> date_le z y.
Proof.
  induction l as [| w l IH]; simpl; intros Hs Hz.
  - destruct Hz as [<- | []]. unfold date_le. lia.
  - apply StronglySorted_inv in Hs as [Hs Hw]. destruct Hz as [<- | Hz].
    + rewrite Forall_forall in Hw. apply Hw, in_or_app. right. now left.
    + now apply IH.
Qed.

Lemma sorted_prefix (l : list row) (y : row) :
  StronglySorted date_le (l ++ [y]) -> StronglySorted date_le l.
Proof.
  induction l as [| w l IH]; simpl; intros Hs; [constructor |].
  apply StronglySorted_inv in Hs as [Hs Hw]. constructor; [now apply IH |].
  rewrite Forall_forall in *. intros z Hz. apply Hw, in_or_app. now left.
Qed.

(** The inner loop of the insertion, run on a sorted prefix, places the
    row as [place] does. *)
Lemma shift_place (x : row) (l : list row) :
  forall (c : row) (r : list row),
    StronglySorted date_le l ->
    shift (l ++ c :: r) x (length l) 0 = place x l ++ r.
Proof.
  induction l as [| y l IH] using rev_ind; intros c r Hs.
  - reflexivity.
  - rewrite length_app, Nat.add_1_r. cbn [shift Nat.ltb Nat.leb].
    rewrite <- app_assoc. cbn [app]. rewrite cell_middle.
    replace (l ++ y :: c :: r) with ((l ++ [y]) ++ c :: r)
      by (now rewrite <- app_assoc).
    replace (S (length l)) with (length (l ++ [y]))
      by (rewrite length_app; simpl; lia).
    rewrite !store_middle.
    destruct (less x y) eqn:E.
    + rewrite <- app_assoc. cbn [app].
      rewrite (IH y (y :: r) (sorted_prefix l y Hs)).
      rewrite place_snoc_later by assumption.
      now rewrite <- app_assoc.
    + rewrite place_last; [now rewrite <- !app_assoc |].
      intros z Hz. pose proof (sorted_snoc_bound l y z Hs Hz) as Hzy.
      unfold less, date_le in *. apply Z.ltb_ge. apply Z.ltb_ge in E. lia.
Qed.

Lemma place_perm x l : Permutation (x :: l) (place x l).
Proof.
  induction l as [| y l IH]; simpl; [reflexivity |].
  destruct (less x y); [reflexivity |].
  rewrite perm_swap. now constructor.
Qed.

Lemma place_sorted x l :
  StronglySorted date_le l -> StronglySorted date_le (place x l).
Proof.
  induction l as [| y l IH]; simpl; intros Hs.
  - constructor; [constructor | constructor].
  - destruct (less x y) eqn:E.
    + constructor; [assumption |].
      apply StronglySorted_inv in Hs as [_ Hy].
      constructor; [unfold less, date_le in *; apply Z.ltb_lt in E; lia |].
      rewrite Forall_forall in *. intros z Hz. specialize (Hy z Hz).
      unfold less, date_le in *. apply Z.ltb_lt in E. lia.
    + apply StronglySorted_inv in Hs as [Hs Hy].
      constructor; [now apply IH |].
      rewrite Forall_forall in *. intros z Hz.
      apply (Permutation_in _ (Permutation_sym (place_perm x l))) in Hz.
      destruct Hz as [<- | Hz]; [| now apply Hy].
      unfold less, date_le in *. apply Z.ltb_ge in E. lia.
Qed.

Lemma filter_none {A : Type} (f : A -> bool) (l : list A) :
  (forall z, In z l -> f z = false) -> filter f l = [].
Proof.
  induction l as [| y l IH]; intros H; cbn [filter]; [reflexivity |].
  rewrite (H y) by now left. apply IH. intros z Hz. apply H. now right.
Qed.

(** A row is placed after the rows of its own date. *)
Lemma place_rows_on x l d :
  StronglySorted date_le l ->
  rows_on d (place x l) = rows_on d l ++ rows_on d [x].
Proof.
  unfold rows_on.
  induction l as [| y l IH]; intros Hs; cbn [place filter app].
  - reflexivity.
  - apply StronglySorted_inv in Hs as [Hs Hy].
    destruct (less x y) eqn:E; cbn [filter].
    + unfold less in E. apply Z.ltb_lt in E.
      destruct (Z.eqb_spec (Cycle_Date x) d) as [Hx | Hx].
      * destruct (Z.eqb_spec (Cycle_Date y) d) as [Hd | _]; [lia |].
        rewrite (filter_none (fun r => (Cycle_Date r =? d)%Z) l);
          [reflexivity |].
        intros z Hz. rewrite Forall_forall in Hy.
        specialize (Hy z Hz). unfold date_le in Hy.
        apply Z.eqb_neq. lia.
      * now rewrite app_nil_r.
    + rewrite (IH Hs).
      destruct (Cycle_Date y =? d)%Z; reflexivity.
Qed.

Lemma insertion_loop_place (rest : list row) :
  forall sorted,
    StronglySorted date_le sorted ->
    insertion_loop (length rest) (sorted ++ rest) (length sorted) 0 =
    fold_left (fun l x => place x l) rest sorted.
Proof.
  induction rest as [| x rest IH]; intros sorted Hs; cbn [length insertion_loop fold_left].
  - apply app_nil_r.
  - rewrite cell_middle, (shift_place x sorted x rest Hs).
    replace (S (length sorted)) with (length (place x sorted))
      by (rewrite <- (Permutation_length (place_perm x sorted)); reflexivity).
    apply IH. now apply place_sorted.
Qed.

Lemma fold_place (rest : list row) :
  forall sorted,
    StronglySorted date_le sorted ->
    let out := fold_left (fun l x => place x l) rest sorted in
    Permutation (sorted ++ rest) out /\
    StronglySorted date_le out /\
    forall d, rows_on d out = rows_on d sorted ++ rows_on d rest.
Proof.
  induction rest as [| x rest IH]; intros sorted Hs; cbn [fold_left].
  - rewrite app_nil_r. split; [reflexivity |]. split; [assumption |].
    intros d. unfold rows_on. cbn [filter]. now rewrite app_nil_r.
  - destruct (IH (place x sorted) (place_sorted x sorted Hs))
      as (Hp & Hso & Hr).
    split; [| split; [assumption |]].
    + rewrite <- Hp. rewrite <- (place_perm x sorted).
      rewrite <- Permutation_middle. reflexivity.
    + intros d. rewrite Hr, (place_rows_on x sorted d Hs), <- app_assoc.
      f_equal. unfold rows_on. cbn [filter].
      destruct (Cycle_Date x =? d)%Z; reflexivity.
Qed.

(** Up to 17 rows the default sort is the insertion loop alone. *)
Lemma aquicksort_short (a : list row) :
  (length a <= 17)%nat ->
  aquicksort a = fold_left (fun l x => place x l) a [].
Proof.
  intros Hlen. unfold aquicksort. cbn [aquicksort_loop].
  assert (Hd : (Z.log2 (Z.of_nat (length a)) * 2 <? 0)%Z = false).
  { apply Z.ltb_ge. pose proof (Z.log2_nonneg (Z.of_nat (length a))). lia. }
  rewrite Hd.
  assert (Hp : partition_loop (length a) a 0 (length a - 1)
                 (Z.log2 (Z.of_nat (length a)) * 2) [] =
               (a, 0%nat, (length a - 1)%nat, [])).
  { destruct (length a) as [| n] eqn:E; [reflexivity |].
    cbn [partition_loop].
    replace (SMALL_QUICKSORT <? S n - 1 - 0)%nat with false; [reflexivity |].
    symmetry. apply Nat.ltb_ge. unfold SMALL_QUICKSORT. lia. }
  rewrite Hp. unfold insertion.
  destruct a as [| x rest]; [reflexivity |].
  cbn [length fold_left place].
  replace (S (length rest) - 1 - 0)%nat with (length rest) by lia.
  apply (insertion_loop_place rest [x]).
  constructor; [constructor | constructor].
Qed.

(** * The default sort returns a sorted table *)

Lemma length_store (a : list row) (i : nat) (x : row) :
  length (store a i x) = length a.
Proof.
  revert i. induction a as [| y a IH]; intros [| i]; simpl; auto.
Qed.

Lemma cell_store_same (a : list row) (i : nat) (x : row) :
  (i < length a)%nat -> cell (store a i x) i = Some x.
Proof.
  revert i. induction a as [| y a IH]; intros [| i] H; simpl in *;
    try lia; [reflexivity |].
  apply IH. lia.
Qed.

Lemma cell_store_other (a : list row) (i j : nat) (x : row) :
  i <> j -> cell (store a i x) j = cell a j.
Proof.
  revert i j. induction a as [| y a IH]; intros [| i] [| j] H; simpl;
    try reflexivity; try congruence.
  apply IH. congruence.
Qed.

Lemma cell_some_lt (a : list row) (i : nat) (x : row) :
  cell a i = Some x -> (i < length a)%nat.
Proof. intros H. apply nth_error_Some. unfold cell in H. congruence. Qed.

Lemma cell_lt_some (a : list row) (i : nat) :
  (i < length a)%nat -> exists x, cell a i = Some x.
Proof.
  intros H. apply nth_error_Some in H. unfold cell.
  destruct (nth_error a i) as [x |]; [now exists x | congruence].
Qed.

Lemma cell_swap (a : list row) (p q i : nat) (x y : row) :
  cell a p = Some x -> cell a q = Some y ->
  cell (swap a p q) i =
  if (i =? q)%nat then Some x else if (i =? p)%nat then Some y else cell a i.
Proof.
  intros Hp Hq. unfold swap. rewrite Hp, Hq.
  destruct (Nat.eqb_spec i q) as [-> | Hiq].
  - apply cell_store_same. rewrite length_store. now apply cell_some_lt in Hq.
  - rewrite cell_store_other by congruence.
    destruct (Nat.eqb_spec i p) as [-> | Hip].
    + apply cell_store_same. now apply cell_some_lt in Hp.
    + apply cell_store_other. congruence.
Qed.

Lemma length_swap (a : list row) (p q : nat) :
  length (swap a p q) = length a.
Proof.
  unfold swap. destruct (cell a p), (cell a q); try reflexivity.
  now rewrite !length_store.
Qed.

Lemma swap_perm (a : list row) (p q : nat) : Permutation a (swap a p q).
Proof.
  destruct (cell a p) as [x |] eqn:Hp;
    [| unfold swap; rewrite Hp; reflexivity].
  destruct (cell a q) as [y |] eqn:Hq;
    [| unfold swap; rewrite Hp, Hq; reflexivity].
  apply Permutation_nth_error. split; [now rewrite length_swap |].
  exists (fun n => if (n =? q)%nat then p else if (n =? p)%nat then q else n).
  split.
  - intros n m.
    destruct (Nat.eqb_spec n q), (Nat.eqb_spec n p),
      (Nat.eqb_spec m q), (Nat.eqb_spec m p); lia.
  - intros n. fold (cell (swap a p q) n). rewrite (cell_swap a p q n x y Hp Hq).
    destruct (Nat.eqb_spec n q); [now symmetry |].
    destruct (Nat.eqb_spec n p); [now symmetry | reflexivity].
Qed.

Lemma local_refl (a : list row) (pl pr : nat) : local a a pl pr.
Proof. split; [reflexivity | reflexivity]. Qed.

Lemma local_trans (a b c : list row) (pl pr : nat) :
  local a b pl pr -> local b c pl pr -> local a c pl pr.
Proof.
  intros [Hp1 Ho1] [Hp2 Ho2]. split; [now transitivity b |].
  intros i Hi. now rewrite Ho2, Ho1.
Qed.

Lemma local_wider (a b : list row) (pl pr pl' pr' : nat) :
  (pl' <= pl)%nat -> (pr <= pr')%nat ->
  local a b pl pr -> local a b pl' pr'.
Proof.
  intros H1 H2 [Hp Ho]. split; [assumption |].
  intros i Hi. apply Ho. lia.
Qed.

Lemma local_length (a b : list row) (pl pr : nat) :
  local a b pl pr -> length b = length a.
Proof. intros [Hp _]. symmetry. now apply Permutation_length. Qed.

Lemma swap_local (a : list row) (p q pl pr : nat) :
  (pl <= p <= pr)%nat -> (pl <= q <= pr)%nat -> local a (swap a p q) pl pr.
Proof.
  intros Hp Hq. split; [apply swap_perm |].
  intros i Hi. unfold swap.
  destruct (cell a p) eqn:E1; [| reflexivity].
  destruct (cell a q) eqn:E2; [| reflexivity].
  rewrite !cell_store_other by lia. reflexivity.
Qed.

(** The three parts of an array around the cells [pl .. pr]. *)
Lemma array_parts (a : list row) (pl m : nat) :
  a = firstn pl a ++ firstn m (skipn pl a) ++ skipn (m + pl) a.
Proof.
  rewrite <- skipn_skipn, firstn_skipn, firstn_skipn. reflexivity.
Qed.

Lemma local_parts (a a' : list row) (pl pr : nat) :
  local a a' pl pr -> (pl <= pr)%nat ->
  firstn pl a' = firstn pl a /\
  skipn (pr + 1 - pl + pl) a' = skipn (pr + 1 - pl + pl) a /\
  Permutation (firstn (pr + 1 - pl) (skipn pl a))
    (firstn (pr + 1 - pl) (skipn pl a')).
Proof.
  intros [Hp Ho] Hle.
  assert (H1 : firstn pl a' = firstn pl a).
  { apply nth_error_ext. intros i. rewrite !nth_error_firstn.
    destruct (Nat.ltb_spec i pl); [| reflexivity]. apply Ho. lia. }
  assert (H2 : skipn (pr + 1 - pl + pl) a' = skipn (pr + 1 - pl + pl) a).
  { apply nth_error_ext. intros i. rewrite !nth_error_skipn.
    apply Ho. lia. }
  split; [assumption |]. split; [assumption |].
  rewrite (array_parts a pl (pr + 1 - pl)) in Hp at 1.
  rewrite (array_parts a' pl (pr + 1 - pl)) in Hp.
  rewrite H1, H2 in Hp.
  apply Permutation_app_inv_l in Hp.
  now apply Permutation_app_inv_r in Hp.
Qed.

Lemma cell_segment (a : list row) (pl m k : nat) :
  nth_error (firstn m (skipn pl a)) k =
  if (k <? m)%nat then cell a (pl + k) else None.
Proof. now rewrite nth_error_firstn, nth_error_skipn. Qed.

(** Where a row of the rearranged array was. *)
Lemma local_origin (a a' : list row) (pl pr i : nat) (x : row) :
  local a a' pl pr -> (pl <= pr)%nat -> cell a' i = Some x ->
  exists i', cell a i' = Some x /\
    (((i < pl \/ pr < i) /\ i' = i) \/
     ((pl <= i <= pr) /\ (pl <= i' <= pr)))%nat.
Proof.
  intros Hl Hle Hx.
  destruct (Nat.lt_ge_cases i pl) as [Hlo | Hlo].
  { exists i. destruct Hl as [_ Ho]. rewrite <- Ho by lia. split; auto. }
  destruct (Nat.lt_ge_cases pr i) as [Hhi | Hhi].
  { exists i. destruct Hl as [_ Ho]. rewrite <- Ho by lia. split; auto. }
  destruct (local_parts a a' pl pr Hl Hle) as (_ & _ & Hp).
  assert (Hin : In x (firstn (pr + 1 - pl) (skipn pl a'))).
  { apply (nth_error_In _ (i - pl)). rewrite cell_segment.
    destruct (Nat.ltb_spec (i - pl) (pr + 1 - pl)); [| lia].
    now replace (pl + (i - pl))%nat with i by lia. }
  apply (Permutation_in _ (Permutation_sym Hp)) in Hin.
  apply In_nth_error in Hin as [k Hk]. rewrite cell_segment in Hk.
  destruct (Nat.ltb_spec k (pr + 1 - pl)); [| discriminate].
  exists (pl + k)%nat. split; [assumption |]. right. lia.
Qed.

Lemma local_sym (a a' : list row) (pl pr : nat) :
  local a a' pl pr -> local a' a pl pr.
Proof.
  intros [Hp Ho]. split; [now symmetry |]. intros i Hi. now rewrite Ho.
Qed.

Lemma local_split_at (a a' : list row) (pl pr b : nat) :
  local a a' pl pr -> (pl <= pr)%nat -> (b <= pl \/ pr < b)%nat ->
  split_at a b -> split_at a' b.
Proof.
  intros Hl Hle Hb Hs i j x y Hij Hx Hy.
  destruct (local_origin a a' pl pr i x Hl Hle Hx) as (i' & Hx' & Hi').
  destruct (local_origin a a' pl pr j y Hl Hle Hy) as (j' & Hy' & Hj').
  apply (Hs i' j' x y); [lia | assumption | assumption].
Qed.

Lemma split_at_sorted (a : list row) :
  (forall b, split_at a b) -> StronglySorted date_le a.
Proof.
  induction a as [| h t IH]; intros H; constructor.
  - apply IH. intros b i j x y Hij Hx Hy.
    apply (H (S b) (S i) (S j)); [lia | assumption | assumption].
  - apply Forall_forall. intros z Hz. apply In_nth_error in Hz as [k Hk].
    apply (H 1%nat 0%nat (S k)); [lia | reflexivity | assumption].
Qed.

Lemma less_false_le (x y : row) : less x y = false -> date_le y x.
Proof. unfold less, date_le. intros H. apply Z.ltb_ge in H. lia. Qed.

Lemma less_true_le (x y : row) : less x y = true -> date_le x y.
Proof. unfold less, date_le. intros H. apply Z.ltb_lt in H. lia. Qed.

Lemma le_less_false (x y : row) : date_le y x -> less x y = false.
Proof. unfold less, date_le. intros H. apply Z.ltb_ge. lia. Qed.

Lemma date_le_trans (x y z : row) : date_le x y -> date_le y z -> date_le x z.
Proof. unfold date_le. lia. Qed.

Lemma date_le_refl (x : row) : date_le x x.
Proof. unfold date_le. lia. Qed.

(** ** The insertion loop on a segment *)

Lemma cell_at (p : list row) (c : row) (r : list row) (i : nat) :
  length p = i -> cell (p ++ c :: r) i = Some c.
Proof. intros <-. apply cell_middle. Qed.

Lemma store_at (p : list row) (c x : row) (r : list row) (i : nat) :
  length p = i -> store (p ++ c :: r) i x = p ++ x :: r.
Proof. intros <-. apply store_middle. Qed.

Lemma shift_stop (a : list row) (vi : row) (pj pl : nat) :
  (pj <= pl)%nat -> shift a vi pj pl = store a pj vi.
Proof.
  intros H. destruct pj as [| pk]; [reflexivity |]. cbn [shift].
  destruct (Nat.ltb_spec pl (S pk)); [lia | reflexivity].
Qed.

Lemma shift_step (a : list row) (vi y : row) (pk pl : nat) :
  (pl <= pk)%nat -> cell a pk = Some y ->
  shift a vi (S pk) pl =
  if less vi y then shift (store a (S pk) y) vi pk pl
  else store a (S pk) vi.
Proof.
  intros H Hy. cbn [shift].
  destruct (Nat.ltb_spec pl (S pk)); [| lia]. now rewrite Hy.
Qed.

Lemma shift_place_from (pre : list row) (x : row) (l : list row) :
  forall (c : row) (r : list row),
    StronglySorted date_le l ->
    shift (pre ++ l ++ c :: r) x (length pre + length l) (length pre) =
    pre ++ place x l ++ r.
Proof.
  induction l as [| y l IH] using rev_ind; intros c r Hs.
  - cbn [app length place]. rewrite Nat.add_0_r, shift_stop by lia.
    now apply store_at.
  - rewrite length_app. cbn [length].
    replace (length pre + (length l + 1))%nat
      with (S (length pre + length l)) by lia.
    assert (Hy : cell (pre ++ (l ++ [y]) ++ c :: r)
                   (length pre + length l) = Some y).
    { replace (pre ++ (l ++ [y]) ++ c :: r)
        with ((pre ++ l) ++ y :: c :: r)
        by (now rewrite <- !app_assoc).
      apply cell_at. now rewrite length_app. }
    rewrite (shift_step _ x y _ _ (Nat.le_add_r _ _) Hy).
    replace (pre ++ (l ++ [y]) ++ c :: r)
      with ((pre ++ l ++ [y]) ++ c :: r)
      by (now rewrite <- !app_assoc).
    rewrite !store_at by (rewrite !length_app; simpl; lia).
    destruct (less x y) eqn:E.
    + replace ((pre ++ l ++ [y]) ++ y :: r) with (pre ++ l ++ y :: y :: r)
        by (now rewrite <- !app_assoc).
      rewrite (IH y (y :: r) (sorted_prefix l y Hs)).
      rewrite place_snoc_later by assumption.
      now rewrite <- !app_assoc.
    + rewrite place_last; [now rewrite <- !app_assoc |].
      intros z Hz. apply le_less_false.
      apply (date_le_trans z y x);
        [now apply (sorted_snoc_bound l) | now apply less_false_le].
Qed.

Lemma insertion_loop_from (pre suf rest : list row) :
  forall sorted,
    StronglySorted date_le sorted ->
    insertion_loop (length rest) (pre ++ sorted ++ rest ++ suf)
      (length pre + length sorted) (length pre) =
    pre ++ fold_left (fun l x => place x l) rest sorted ++ suf.
Proof.
  induction rest as [| x rest IH]; intros sorted Hs;
    cbn [length insertion_loop fold_left]; [reflexivity |].
  assert (Hx : cell (pre ++ sorted ++ (x :: rest) ++ suf)
                 (length pre + length sorted) = Some x).
  { replace (pre ++ sorted ++ (x :: rest) ++ suf)
      with ((pre ++ sorted) ++ x :: rest ++ suf)
      by (now rewrite <- !app_assoc).
    apply cell_at. now rewrite length_app. }
  rewrite Hx. cbn [app].
  rewrite (shift_place_from pre x sorted x (rest ++ suf) Hs).
  replace (S (length pre + length sorted))
    with (length pre + length (place x sorted))%nat
    by (rewrite <- (Permutation_length (place_perm x sorted)); simpl; lia).
  apply IH. now apply place_sorted.
Qed.

Lemma sorted_cells (l : list row) (i j : nat) (x y : row) :
  StronglySorted date_le l -> (i <= j)%nat ->
  nth_error l i = Some x -> nth_error l j = Some y -> date_le x y.
Proof.
  intros Hs. revert i j. induction Hs as [| h t Hs IH Hh]; intros i j Hij Hx Hy.
  - destruct i; discriminate.
  - destruct i as [| i], j as [| j]; simpl in *; try lia.
    + injection Hx as <-. injection Hy as <-. apply date_le_refl.
    + injection Hx as <-. rewrite Forall_forall in Hh.
      apply Hh. now apply nth_error_In in Hy.
    + apply (IH i j); [lia | assumption | assumption].
Qed.

(** A segment replaced by a sorted arrangement of its rows. *)
Lemma segment_replaced (a : list row) (pl pr : nat) (seg : list row) :
  (pl <= pr)%nat -> (pr < length a)%nat ->
  Permutation (firstn (pr + 1 - pl) (skipn pl a)) seg ->
  StronglySorted date_le seg ->
  let a' := firstn pl a ++ seg ++ skipn (pr + 1 - pl + pl) a in
  local a a' pl pr /\ sorted_seg a' pl pr.
Proof.
  intros Hle Hlt Hp Hs a'.
  assert (Hl1 : length (firstn pl a) = pl) by (rewrite length_firstn; lia).
  assert (Hl2 : length seg = (pr + 1 - pl)%nat).
  { rewrite <- (Permutation_length Hp), length_firstn, length_skipn. lia. }
  split; [split |].
  - rewrite (array_parts a pl (pr + 1 - pl)) at 1. subst a'.
    apply Permutation_app_head. now apply Permutation_app_tail.
  - intros i Hi. subst a'. unfold cell. destruct Hi as [Hi | Hi].
    + rewrite nth_error_app1 by lia. rewrite nth_error_firstn.
      destruct (Nat.ltb_spec i pl); [reflexivity | lia].
    + rewrite nth_error_app2 by lia. rewrite nth_error_app2 by lia.
      rewrite nth_error_skipn. f_equal. lia.
  - intros i j x y Hij Hj Hx Hy. subst a'. unfold cell in *.
    rewrite nth_error_app2 in Hx by lia. rewrite nth_error_app1 in Hx by lia.
    rewrite nth_error_app2 in Hy by lia. rewrite nth_error_app1 in Hy by lia.
    apply (sorted_cells seg (i - length (firstn pl a))
             (j - length (firstn pl a))); [assumption | lia | assumption ..].
Qed.

Lemma insertion_spec (a : list row) (pl pr : nat) :
  (pl <= pr)%nat -> (pr < length a)%nat ->
  local a (insertion a pl pr) pl pr /\ sorted_seg (insertion a pl pr) pl pr.
Proof.
  intros Hle Hlt.
  destruct (firstn (pr + 1 - pl) (skipn pl a)) as [| x rest] eqn:E.
  { apply (f_equal (@length row)) in E.
    rewrite length_firstn, length_skipn in E. simpl in E. lia. }
  assert (Hlen : length rest = (pr - pl)%nat).
  { apply (f_equal (@length row)) in E.
    rewrite length_firstn, length_skipn in E. simpl in E. lia. }
  assert (Hl1 : length (firstn pl a) = pl) by (rewrite length_firstn; lia).
  assert (Hs : StronglySorted date_le [x])
    by (constructor; [constructor | constructor]).
  destruct (fold_place rest [x] Hs) as (Hp & Hso & _).
  pose proof (segment_replaced a pl pr
                (fold_left (fun l x => place x l) rest [x]) Hle Hlt) as H.
  rewrite E in H. specialize (H Hp Hso). cbn zeta in H.
  replace (insertion a pl pr)
    with (firstn pl a ++ fold_left (fun l x => place x l) rest [x] ++
          skipn (pr + 1 - pl + pl) a); [exact H |].
  unfold insertion. rewrite (array_parts a pl (pr + 1 - pl)) at 3.
  rewrite E, <- Hlen.
  pose proof (insertion_loop_from (firstn pl a)
                (skipn (pr + 1 - pl + pl) a) rest [x] Hs) as Hi.
  rewrite Hl1 in Hi. cbn [length app] in Hi.
  replace (pl + 1)%nat with (S pl) in Hi by lia.
  cbn [app]. now rewrite Hi.
Qed.

(** ** The partition *)

Lemma scan_up_spec (a : list row) (vp : row) (s : nat) (y : row) :
  cell a s = Some y -> less y vp = false ->
  forall fuel pi,
    (pi <= s)%nat -> (s - pi < fuel)%nat ->
    let r := scan_up fuel a vp pi in
    (pi <= r <= s)%nat /\
    (forall k x, (pi <= k < r)%nat -> cell a k = Some x -> less x vp = true) /\
    exists x, cell a r = Some x /\ less x vp = false.
Proof.
  intros Hs Hy. induction fuel as [| fuel IH]; intros pi Hpi Hf; [lia |].
  cbn [scan_up].
  destruct (cell_lt_some a pi) as [x Hx];
    [apply cell_some_lt in Hs; lia |].
  rewrite Hx. destruct (less x vp) eqn:E.
  - assert (pi <> s) by (intros ->; congruence).
    destruct (IH (S pi)) as (H1 & H2 & H3); [lia | lia |].
    split; [lia |]. split; [| exact H3].
    intros k z Hk Hz. destruct (Nat.eq_dec k pi) as [-> | Hne].
    + congruence.
    + apply (H2 k z); [lia | assumption].
  - split; [lia |]. split; [intros k z Hk; lia |]. now exists x.
Qed.

Lemma scan_down_spec (a : list row) (vp : row) (s : nat) (y : row) :
  cell a s = Some y -> less vp y = false ->
  forall pj,
    (s <= pj)%nat -> (pj < length a)%nat ->
    let r := scan_down a vp pj in
    (s <= r <= pj)%nat /\
    (forall k x, (r < k <= pj)%nat -> cell a k = Some x -> less vp x = true) /\
    exists x, cell a r = Some x /\ less vp x = false.
Proof.
  intros Hs Hy. induction pj as [| pj IH]; intros Hpj Hlen.
  - cbn [scan_down]. assert (s = 0%nat) as -> by lia.
    split; [lia |]. split; [intros k z Hk; lia |]. now exists y.
  - cbn [scan_down].
    destruct (cell_lt_some a (S pj) Hlen) as [x Hx].
    rewrite Hx. destruct (less vp x) eqn:E.
    + assert (S pj <> s) by (intros <-; congruence).
      destruct IH as (H1 & H2 & H3); [lia | lia |].
      split; [lia |]. split; [| exact H3].
      intros k z Hk Hz. destruct (Nat.eq_dec k (S pj)) as [-> | Hne].
      * congruence.
      * apply (H2 k z); [lia | assumption].
    + split; [lia |]. split; [intros k z Hk; lia |]. now exists x.
Qed.

Lemma hoare_spec (vp : row) (pl pr : nat) :
  forall fuel a pi pj a' r,
    (pl <= pi < pj)%nat -> (pj <= pr - 1)%nat -> (pr < length a)%nat ->
    (pj - pi <= fuel)%nat ->
    (forall i x, (pl <= i <= pi)%nat -> cell a i = Some x -> date_le x vp) ->
    (forall j y, (pj <= j <= pr)%nat -> cell a j = Some y -> date_le vp y) ->
    hoare fuel a vp pi pj = (a', r) ->
    local a a' pl pr /\
    cell a' (pr - 1) = cell a (pr - 1) /\
    (pi < r <= pj)%nat /\
    (forall i x, (pl <= i < r)%nat -> cell a' i = Some x -> date_le x vp) /\
    (forall j y, (r <= j <= pr)%nat -> cell a' j = Some y -> date_le vp y).
Proof.
  induction fuel as [| fuel IH];
    intros a pi pj a' r Hpi Hpj Hlen Hf Hlo Hhi Hh; [lia |].
  cbn [hoare] in Hh.
  destruct (cell_lt_some a pj) as [yj Hyj]; [lia |].
  destruct (cell_lt_some a pi) as [xi Hxi]; [lia |].
  destruct (scan_up_spec a vp pj yj Hyj
              (le_less_false _ _ (Hhi pj yj ltac:(lia) Hyj))
              (length a) (S pi) ltac:(lia) ltac:(lia))
    as (U1 & U2 & xu & U3 & U4).
  destruct (scan_down_spec a vp pi xi Hxi
              (le_less_false _ _ (Hlo pi xi ltac:(lia) Hxi))
              (pj - 1)%nat ltac:(lia) ltac:(lia))
    as (D1 & D2 & xd & D3 & D4).
  set (pi' := scan_up (length a) a vp (S pi)) in *.
  set (pj' := scan_down a vp (pj - 1)) in *.
  destruct (Nat.leb_spec pj' pi') as [Hx | Hx].
  - injection Hh as <- <-.
    split; [apply local_refl |]. split; [reflexivity |]. split; [lia |].
    split.
    + intros i x Hi Hc. destruct (Nat.le_gt_cases i pi).
      * apply (Hlo i x); [lia | assumption].
      * apply less_true_le, (U2 i x); [lia | assumption].
    + intros j y Hj Hc. destruct (Nat.eq_dec j pi') as [-> | Hne].
      * rewrite U3 in Hc. injection Hc as <-. now apply less_false_le.
      * destruct (Nat.le_gt_cases pj j).
        -- apply (Hhi j y); [lia | assumption].
        -- apply less_true_le, (D2 j y); [lia | assumption].
  - destruct (IH (swap a pi' pj') pi' pj' a' r) as (L & C & R1 & R2 & R3);
      try assumption; try lia.
    + rewrite length_swap. lia.
    + intros i x Hi Hc. rewrite (cell_swap a pi' pj' i xu xd U3 D3) in Hc.
      destruct (Nat.eqb_spec i pj'); [lia |].
      destruct (Nat.eqb_spec i pi').
      * injection Hc as <-. now apply less_false_le.
      * destruct (Nat.le_gt_cases i pi).
        -- apply (Hlo i x); [lia | assumption].
        -- apply less_true_le, (U2 i x); [lia | assumption].
    + intros j y Hj Hc. rewrite (cell_swap a pi' pj' j xu xd U3 D3) in Hc.
      destruct (Nat.eqb_spec j pj').
      * injection Hc as <-. now apply less_false_le.
      * destruct (Nat.eqb_spec j pi'); [lia |].
        destruct (Nat.le_gt_cases pj j).
        -- apply (Hhi j y); [lia | assumption].
        -- apply less_true_le, (D2 j y); [lia | assumption].
    + split.
      { apply (local_trans a (swap a pi' pj') a'); [| assumption].
        apply swap_local; lia. }
      split.
      { rewrite C, (cell_swap a pi' pj' (pr - 1) xu xd U3 D3).
        destruct (Nat.eqb_spec (pr - 1) pj'); [lia |].
        destruct (Nat.eqb_spec (pr - 1) pi'); [lia | reflexivity]. }
      split; [lia |]. split; assumption.
Qed.

(** One compare-and-swap of the median of three. *)
Lemma compare_swap (a : list row) (p q : nat) (x y : row) :
  cell a p = Some x -> cell a q = Some y ->
  let a' := if less_at a p q then swap a p q else a in
  exists x' y',
    cell a' p = Some x' /\ cell a' q = Some y' /\ date_le y' x' /\
    (forall i, i <> p -> i <> q -> cell a' i = cell a i) /\
    Permutation a a' /\
    ((x' = x /\ y' = y) \/ (x' = y /\ y' = x /\ date_le x y)).
Proof.
  intros Hp Hq a'. subst a'. unfold less_at. rewrite Hp, Hq.
  destruct (less x y) eqn:E.
  - exists y, x.
    destruct (Nat.eq_dec p q) as [-> | Hne].
    + assert (x = y) as -> by congruence. unfold less in E.
      rewrite Z.ltb_irrefl in E. discriminate.
    + rewrite !(cell_swap a p q _ x y Hp Hq), !Nat.eqb_refl.
      destruct (Nat.eqb_spec p q); [lia |].
      split; [reflexivity |]. split; [reflexivity |].
      split; [now apply less_true_le |]. split.
      * intros i Hi Hj. rewrite (cell_swap a p q i x y Hp Hq).
        destruct (Nat.eqb_spec i q); [lia |].
        destruct (Nat.eqb_spec i p); [lia | reflexivity].
      * split; [apply swap_perm |]. right.
        split; [reflexivity |]. split; [reflexivity |].
        now apply less_true_le.
  - exists x, y. split; [assumption |]. split; [assumption |].
    split; [now apply less_false_le |]. split; [reflexivity |].
    split; [reflexivity |]. now left.
Qed.

Lemma partition_spec (a : list row) (pl pr : nat) (a' : list row) (pi : nat) :
  (pl + 2 <= pr)%nat -> (pr < length a)%nat ->
  partition a pl pr = (a', pi) ->
  local a a' pl pr /\ (pl < pi < pr)%nat /\
  exists vp,
    cell a' pi = Some vp /\
    (forall i x, (pl <= i < pi)%nat -> cell a' i = Some x -> date_le x vp) /\
    (forall j y, (pi < j <= pr)%nat -> cell a' j = Some y -> date_le vp y).
Proof.
  intros Hle Hlen. unfold partition.
  set (pm := (pl + Nat.div2 (pr - pl))%nat).
  assert (Hpm : (pl < pm < pr)%nat).
  { subst pm. rewrite Nat.div2_div.
    pose proof (Nat.div_le_lower_bound (pr - pl) 2 1 ltac:(lia) ltac:(lia)).
    pose proof (Nat.Div0.div_lt_upper_bound (pr - pl) 2 (pr - pl)
                  ltac:(lia)).
    lia. }
  destruct (cell_lt_some a pl) as [x0 Hx0]; [lia |].
  destruct (cell_lt_some a pm) as [y0 Hy0]; [lia |].
  destruct (cell_lt_some a pr) as [z0 Hz0]; [lia |].
  destruct (compare_swap a pm pl y0 x0 Hy0 Hx0)
    as (y1 & x1 & Hy1 & Hx1 & O1 & F1 & P1 & _).
  set (a1 := if less_at a pm pl then swap a pm pl else a) in *.
  assert (Hz1 : cell a1 pr = Some z0) by (rewrite F1 by lia; assumption).
  destruct (compare_swap a1 pr pm z0 y1 Hz1 Hy1)
    as (z2 & y2 & Hz2 & Hy2 & O2 & F2 & P2 & V2).
  set (a2 := if less_at a1 pr pm then swap a1 pr pm else a1) in *.
  assert (Hx2 : cell a2 pl = Some x1) by (rewrite F2 by lia; assumption).
  assert (B2 : date_le x1 z2).
  { destruct V2 as [[-> ->] | (-> & -> & V2)].
    - now apply (date_le_trans x1 y1 z0).
    - assumption. }
  destruct (compare_swap a2 pm pl y2 x1 Hy2 Hx2)
    as (y3 & x3 & Hy3 & Hx3 & O3 & F3 & P3 & V3).
  set (a3 := if less_at a2 pm pl then swap a2 pm pl else a2) in *.
  assert (Hz3 : cell a3 pr = Some z2) by (rewrite F3 by lia; assumption).
  assert (B3 : date_le y3 z2).
  { destruct V3 as [[-> ->] | (-> & -> & V3)]; assumption. }
  assert (L3 : local a a3 pl pr).
  { split; [now rewrite P1, P2 |].
    intros i Hi. rewrite F3, F2, F1 by lia. reflexivity. }
  rewrite Hy3.
  destruct (cell_lt_some a3 (pr - 1)) as [w Hw];
    [rewrite (local_length a a3 pl pr L3); lia |].
  set (a4 := swap a3 pm (pr - 1)).
  assert (C4 : forall i, cell a4 i =
                 if (i =? pr - 1)%nat then Some y3
                 else if (i =? pm)%nat then Some w else cell a3 i).
  { intros i. apply cell_swap; assumption. }
  assert (Hlen4 : length a4 = length a).
  { subst a4. now rewrite length_swap, (local_length a a3 pl pr L3). }
  destruct (hoare (length a4) a4 y3 pl (pr - 1)) as [a5 r] eqn:Hh.
  intros Heq. injection Heq as <- <-.
  destruct (hoare_spec y3 pl pr (length a4) a4 pl (pr - 1)%nat a5 r)
    as (L5 & C5 & R5 & Lo5 & Hi5); try assumption; try lia.
  - intros i x Hi Hc. assert (i = pl) as -> by lia.
    rewrite C4 in Hc.
    destruct (Nat.eqb_spec pl (pr - 1)); [lia |].
    destruct (Nat.eqb_spec pl pm); [lia |].
    rewrite Hx3 in Hc. now injection Hc as <-.
  - intros j y Hj Hc. rewrite C4 in Hc.
    destruct (Nat.eqb_spec j (pr - 1)).
    + injection Hc as <-. apply date_le_refl.
    + assert (j = pr) as -> by lia.
      destruct (Nat.eqb_spec pr pm); [lia |].
      rewrite Hz3 in Hc. now injection Hc as <-.
  - assert (Hv : cell a5 (pr - 1) = Some y3).
    { rewrite C5, C4. now rewrite Nat.eqb_refl. }
    destruct (cell_lt_some a5 r) as [u Hu];
      [rewrite (local_length a4 a5 pl pr L5); lia |].
    assert (L : local a (swap a5 r (pr - 1)) pl pr).
    { apply (local_trans a a3); [assumption |].
      apply (local_trans a3 a4); [apply swap_local; lia |].
      apply (local_trans a4 a5); [assumption |].
      apply swap_local; lia. }
    split; [exact L |]. split; [lia |].
    exists y3. rewrite !(cell_swap a5 r (pr - 1) _ u y3 Hu Hv).
    destruct (Nat.eqb_spec r (pr - 1)) as [Hr | Hr].
    + split; [congruence |]. split.
      * intros i x Hi Hc. rewrite (cell_swap a5 r (pr - 1) i u y3 Hu Hv) in Hc.
        destruct (Nat.eqb_spec i (pr - 1)); [lia |].
        destruct (Nat.eqb_spec i r); [lia |].
        apply (Lo5 i x); [lia | assumption].
      * intros j y Hj Hc. rewrite (cell_swap a5 r (pr - 1) j u y3 Hu Hv) in Hc.
        destruct (Nat.eqb_spec j (pr - 1)); [lia |].
        destruct (Nat.eqb_spec j r); [lia |].
        apply (Hi5 j y); [lia | assumption].
    + rewrite Nat.eqb_refl. split; [reflexivity |]. split.
      * intros i x Hi Hc. rewrite (cell_swap a5 r (pr - 1) i u y3 Hu Hv) in Hc.
        destruct (Nat.eqb_spec i (pr - 1)); [lia |].
        destruct (Nat.eqb_spec i r); [lia |].
        apply (Lo5 i x); [lia | assumption].
      * intros j y Hj Hc. rewrite (cell_swap a5 r (pr - 1) j u y3 Hu Hv) in Hc.
        destruct (Nat.eqb_spec j (pr - 1)).
        -- injection Hc as <-. apply (Hi5 r u); [lia | assumption].
        -- destruct (Nat.eqb_spec j r); [lia |].
           apply (Hi5 j y); [lia | assumption].
Qed.

(** ** The heapsort *)

Lemma heap_cell_some (a : list row) (pl n k : nat) :
  (pl + n <= length a)%nat -> (1 <= k <= n)%nat ->
  exists x, heap_cell a pl k = Some x.
Proof. intros H Hk. apply cell_lt_some. lia. Qed.

Lemma heap_store_same (a : list row) (pl k : nat) (x : row) :
  (1 <= k)%nat -> (pl + k <= length a)%nat ->
  heap_cell (heap_store a pl k x) pl k = Some x.
Proof. intros H1 H2. apply cell_store_same. lia. Qed.

Lemma heap_store_other (a : list row) (pl k c : nat) (x : row) :
  (1 <= k)%nat -> (1 <= c)%nat -> k <> c ->
  heap_cell (heap_store a pl k x) pl c = heap_cell a pl c.
Proof. intros H1 H2 H3. apply cell_store_other. lia. Qed.

Lemma heap_store_outside (a : list row) (pl n k q : nat) (x : row) :
  (1 <= k <= n)%nat -> (q < pl \/ pl + n <= q)%nat ->
  cell (heap_store a pl k x) q = cell a q.
Proof. intros H1 H2. apply cell_store_other. lia. Qed.

(** Moving the child at [j] up into the hole at [i] and putting [tmp]
    in its place exchanges two cells of the array that has [tmp] in the
    hole. *)
Lemma hole_moves (a : list row) (pl n i j : nat) (tmp y : row) :
  (pl + n <= length a)%nat -> (1 <= i)%nat -> (i < j <= n)%nat ->
  heap_cell a pl j = Some y ->
  Permutation (heap_store a pl i tmp)
    (heap_store (heap_store a pl i y) pl j tmp).
Proof.
  intros Hlen Hi Hj Hy.
  replace (heap_store (heap_store a pl i y) pl j tmp)
    with (swap (heap_store a pl i tmp) (pl + i - 1) (pl + j - 1));
    [apply swap_perm |].
  assert (H1 : cell (heap_store a pl i tmp) (pl + i - 1) = Some tmp)
    by (apply cell_store_same; lia).
  assert (H2 : cell (heap_store a pl i tmp) (pl + j - 1) = Some y).
  { unfold heap_store. rewrite cell_store_other by lia. exact Hy. }
  apply nth_error_ext. intros q.
  fold (cell (swap (heap_store a pl i tmp) (pl + i - 1) (pl + j - 1)) q).
  fold (cell (heap_store (heap_store a pl i y) pl j tmp) q).
  rewrite (cell_swap _ _ _ q tmp y H1 H2). unfold heap_store.
  destruct (Nat.eqb_spec q (pl + j - 1)) as [-> | Hq].
  - symmetry. apply cell_store_same. rewrite length_store. lia.
  - rewrite (cell_store_other _ (pl + j - 1) q) by lia.
    destruct (Nat.eqb_spec q (pl + i - 1)) as [-> | Hq'].
    + symmetry. apply cell_store_same. lia.
    + now rewrite !cell_store_other by lia.
Qed.

(** The child that the sift compares [tmp] with is the later of the
    two. *)
Lemma larger_child (a : list row) (pl n j : nat) :
  (pl + n <= length a)%nat -> (1 <= j <= n)%nat ->
  let j' :=
    if (j <? n)%nat
    then match heap_cell a pl j, heap_cell a pl (j + 1) with
         | Some x, Some y => if less x y then (j + 1)%nat else j
         | _, _ => j
         end
    else j in
  (j' = j \/ j' = j + 1)%nat /\ (j' <= n)%nat /\
  forall c y y',
    (c = j \/ c = S j)%nat -> (c <= n)%nat ->
    heap_cell a pl c = Some y -> heap_cell a pl j' = Some y' -> date_le y y'.
Proof.
  intros Hlen Hj j'. subst j'.
  destruct (Nat.ltb_spec j n) as [Hlt | Hge].
  - destruct (heap_cell_some a pl n j Hlen ltac:(lia)) as [x Hx].
    destruct (heap_cell_some a pl n (j + 1) Hlen ltac:(lia)) as [y Hy].
    rewrite Hx, Hy. destruct (less x y) eqn:E.
    + split; [now right |]. split; [lia |].
      intros c z z' Hc Hcn Hz Hz'. rewrite Hy in Hz'. injection Hz' as <-.
      destruct Hc as [-> | ->].
      * rewrite Hx in Hz. injection Hz as <-. now apply less_true_le.
      * replace (S j) with (j + 1)%nat in Hz by lia.
        rewrite Hy in Hz. injection Hz as <-. apply date_le_refl.
    + split; [now left |]. split; [lia |].
      intros c z z' Hc Hcn Hz Hz'. rewrite Hx in Hz'. injection Hz' as <-.
      destruct Hc as [-> | ->].
      * rewrite Hx in Hz. injection Hz as <-. apply date_le_refl.
      * replace (S j) with (j + 1)%nat in Hz by lia.
        rewrite Hy in Hz. injection Hz as <-. now apply less_false_le.
  - split; [now left |]. split; [lia |].
    intros c z z' Hc Hcn Hz Hz'. assert (c = j) as -> by lia.
    rewrite Hz in Hz'. injection Hz' as <-. apply date_le_refl.
Qed.

(** Filling the hole once no child is later than [tmp]. *)
Lemma sift_done (a : list row) (pl n lo i : nat) (tmp : row) :
  (1 <= lo <= i)%nat -> (i <= n)%nat -> (pl + n <= length a)%nat ->
  (forall k c x y,
     (lo <= k)%nat -> k <> i -> (c = k + k \/ c = S (k + k))%nat ->
     (c <= n)%nat -> heap_cell a pl k = Some x -> heap_cell a pl c = Some y ->
     date_le y x) ->
  (forall k x,
     (lo <= k)%nat -> (i = k + k \/ i = S (k + k))%nat ->
     heap_cell a pl k = Some x -> date_le tmp x) ->
  (forall c y,
     (c = i + i \/ c = S (i + i))%nat -> (c <= n)%nat ->
     heap_cell a pl c = Some y -> date_le y tmp) ->
  heap_ok (heap_store a pl i tmp) pl lo n.
Proof.
  intros Hlo Hin Hlen HA HB HC k c x y Hk Hc Hcn Hx Hy.
  destruct (Nat.eq_dec k i) as [-> | Hki].
  - rewrite heap_store_same in Hx by lia. injection Hx as <-.
    rewrite heap_store_other in Hy by lia. now apply (HC c y).
  - rewrite heap_store_other in Hx by lia.
    destruct (Nat.eq_dec c i) as [-> | Hci].
    + rewrite heap_store_same in Hy by lia. injection Hy as <-.
      now apply (HB k x).
    + rewrite heap_store_other in Hy by lia. now apply (HA k c x y).
Qed.

Lemma sift_spec (pl n lo : nat) (tmp : row) :
  forall fuel a i,
    (1 <= lo <= i)%nat -> (i <= n)%nat -> (pl + n <= length a)%nat ->
    (n < fuel + i)%nat ->
    (forall k c x y,
       (lo <= k)%nat -> k <> i -> (c = k + k \/ c = S (k + k))%nat ->
       (c <= n)%nat -> heap_cell a pl k = Some x -> heap_cell a pl c = Some y ->
       date_le y x) ->
    (forall k x,
       (lo <= k)%nat -> (i = k + k \/ i = S (k + k))%nat ->
       heap_cell a pl k = Some x -> date_le tmp x) ->
    (forall k c x y,
       (lo <= k)%nat -> (i = k + k \/ i = S (k + k))%nat ->
       (c = i + i \/ c = S (i + i))%nat -> (c <= n)%nat ->
       heap_cell a pl k = Some x -> heap_cell a pl c = Some y -> date_le y x) ->
    let a' := sift fuel a pl n tmp i (i + i) in
    heap_ok a' pl lo n /\
    Permutation (heap_store a pl i tmp) a' /\
    forall q, (q < pl \/ pl + n <= q)%nat -> cell a' q = cell a q.
Proof.
  induction fuel as [| fuel IH]; intros a i Hlo Hin Hlen Hf HA HB HD; [lia |].
  cbn [sift].
  destruct (Nat.leb_spec (i + i) n) as [Hj | Hj].
  - destruct (larger_child a pl n (i + i) Hlen ltac:(lia)) as (J1 & J2 & J3).
    set (j' := if (i + i <? n)%nat
               then match heap_cell a pl (i + i), heap_cell a pl (i + i + 1) with
                    | Some x, Some y => if less x y then (i + i + 1)%nat else (i + i)%nat
                    | _, _ => (i + i)%nat
                    end
               else (i + i)%nat) in *.
    destruct (heap_cell_some a pl n j' Hlen ltac:(lia)) as [y Hy].
    rewrite Hy. destruct (less tmp y) eqn:E.
    + destruct (IH (heap_store a pl i y) j') as (K1 & K2 & K3);
        try lia.
      * unfold heap_store. rewrite length_store. lia.
      * intros k c x z Hk Hkj Hc Hcn Hx Hz.
        destruct (Nat.eq_dec k i) as [-> | Hki].
        -- rewrite heap_store_same in Hx by lia. injection Hx as <-.
           rewrite heap_store_other in Hz by lia.
           apply (J3 c z y); [lia | assumption | assumption | assumption].
        -- rewrite heap_store_other in Hx by lia.
           destruct (Nat.eq_dec c i) as [-> | Hci].
           ++ rewrite heap_store_same in Hz by lia. injection Hz as <-.
              apply (HD k j' x y); try assumption; lia.
           ++ rewrite heap_store_other in Hz by lia.
              now apply (HA k c x z).
      * intros k x Hk Hc Hx. assert (k = i) as -> by lia.
        rewrite heap_store_same in Hx by lia. injection Hx as <-.
        now apply less_true_le.
      * intros k c x z Hk Hkj Hc Hcn Hx Hz. assert (k = i) as -> by lia.
        rewrite heap_store_same in Hx by lia. injection Hx as <-.
        rewrite heap_store_other in Hz by lia.
        apply (HA j' c y z); try assumption; lia.
      * split; [exact K1 |]. split.
        -- rewrite <- K2. apply (hole_moves a pl n i j' tmp y); try assumption; lia.
        -- intros q Hq. rewrite K3 by assumption.
           apply (heap_store_outside a pl n i q y); [lia | assumption].
    + split; [| split; [reflexivity |]].
      * apply sift_done; try assumption.
        intros c z Hc Hcn Hz.
        apply (date_le_trans z y tmp); [| now apply less_false_le].
        apply (J3 c z y); [lia | assumption | assumption | assumption].
      * intros q Hq. apply (heap_store_outside a pl n i q tmp); [lia | assumption].
  - split; [| split; [reflexivity |]].
    + apply sift_done; try assumption. intros c z Hc Hcn. lia.
    + intros q Hq. apply (heap_store_outside a pl n i q tmp); [lia | assumption].
Qed.

Lemma store_same (a : list row) (i : nat) (x : row) :
  cell a i = Some x -> store a i x = a.
Proof.
  revert i. induction a as [| y a IH]; intros [| i] H; simpl in *;
    try reflexivity.
  - now injection H as ->.
  - now rewrite IH.
Qed.

Lemma store_comm (a : list row) (i j : nat) (x y : row) :
  i <> j -> store (store a i x) j y = store (store a j y) i x.
Proof.
  revert i j. induction a as [| z a IH]; intros [| i] [| j] H; simpl;
    try reflexivity; try congruence.
  rewrite IH; [reflexivity | congruence].
Qed.

Lemma heapify_spec (pl n : nat) :
  forall l a,
    (l <= n)%nat -> (pl + n <= length a)%nat -> heap_ok a pl (S l) n ->
    let a' := heapify l a pl n in
    heap_ok a' pl 1 n /\ Permutation a a' /\
    forall q, (q < pl \/ pl + n <= q)%nat -> cell a' q = cell a q.
Proof.
  induction l as [| l IH]; intros a Hl Hlen Hh; cbn [heapify].
  - split; [assumption |]. split; reflexivity.
  - destruct (heap_cell_some a pl n (S l) Hlen ltac:(lia)) as [tmp Ht].
    rewrite Ht.
    destruct (sift_spec pl n (S l) tmp n a (S l)) as (K1 & K2 & K3);
      try lia; try assumption.
    + intros k c x y Hk Hne Hc Hcn Hx Hy.
      apply (Hh k c x y); try assumption; lia.
    + unfold heap_store in K2. rewrite (store_same _ _ _ Ht) in K2.
      destruct (IH (sift n a pl n tmp (S l) (S l + S l))) as (I1 & I2 & I3);
        try assumption; try lia.
      * rewrite <- (Permutation_length K2). assumption.
      * split; [assumption |]. split; [now transitivity
          (sift n a pl n tmp (S l) (S l + S l)) |].
        intros q Hq. now rewrite I3, K3.
Qed.

(** The first cell of a heap holds a latest row. *)
Lemma heap_top (a : list row) (pl n : nat) (t : row) :
  heap_ok a pl 1 n -> (pl + n <= length a)%nat ->
  heap_cell a pl 1 = Some t ->
  forall k x, (1 <= k <= n)%nat -> heap_cell a pl k = Some x -> date_le x t.
Proof.
  intros Hh Hlen Ht k. induction k as [k IH] using lt_wf_ind.
  intros x Hk Hx. destruct (Nat.eq_dec k 1) as [-> | Hne].
  - rewrite Ht in Hx. injection Hx as <-. apply date_le_refl.
  - assert (Hp : exists p, (1 <= p < k)%nat /\ (k = p + p \/ k = S (p + p))%nat).
    { destruct (Nat.Even_or_Odd k) as [[p Hp] | [p Hp]]; exists p; lia. }
    destruct Hp as (p & Hp & Hc).
    destruct (heap_cell_some a pl n p Hlen ltac:(lia)) as [z Hz].
    apply (date_le_trans x z t).
    + apply (Hh p k z x); try assumption; lia.
    + apply (IH p); [lia | lia | assumption].
Qed.

Lemma heap_drain_spec (pl m : nat) :
  forall n a,
    (1 <= n <= m)%nat -> (pl + m <= length a)%nat ->
    heap_ok a pl 1 n ->
    (forall i j x y,
       (pl <= i <= j)%nat -> (j <= pl + m - 1)%nat -> (pl + n <= j)%nat ->
       cell a i = Some x -> cell a j = Some y -> date_le x y) ->
    let a' := heap_drain n a pl in
    local a a' pl (pl + m - 1) /\ sorted_seg a' pl (pl + m - 1).
Proof.
  induction n as [| n IH]; intros a Hn Hlen Hh Hd; [lia |].
  cbn [heap_drain]. destruct n as [| n'].
  - split; [apply local_refl |].
    intros i j x y Hij Hj Hx Hy.
    destruct (Nat.eq_dec j pl) as [-> | Hne].
    + assert (i = pl) as -> by lia. rewrite Hx in Hy. injection Hy as <-.
      apply date_le_refl.
    + apply (Hd i j x y); try assumption; lia.
  - set (n := S n') in *.
    destruct (heap_cell_some a pl (S n) (S n) ltac:(lia) ltac:(lia))
      as [tmp Ht].
    destruct (heap_cell_some a pl (S n) 1 ltac:(lia) ltac:(lia))
      as [top Hto].
    rewrite Ht, Hto.
    set (a1 := heap_store a pl (S n) top).
    assert (Hlen1 : length a1 = length a)
      by (subst a1; unfold heap_store; now rewrite length_store).
    destruct (sift_spec pl n 1 tmp n a1 1) as (K1 & K2 & K3); try lia.
    + intros k c x y Hk Hne Hc Hcn Hx Hy. subst a1.
      rewrite heap_store_other in Hx by lia.
      rewrite heap_store_other in Hy by lia.
      apply (Hh k c x y); try assumption; lia.
    + change (1 + 1)%nat with 2%nat in *.
      set (a2 := sift n a1 pl n tmp 1 2) in *.
      assert (L2 : local a a2 pl (pl + S n - 1)).
      { split.
        - rewrite <- K2. subst a1. unfold heap_store.
          rewrite store_comm by lia.
          pose proof (hole_moves a pl (S n) 1 (S n) top tmp
                        ltac:(lia) ltac:(lia) ltac:(lia) Ht) as Hm.
          unfold heap_store in Hm.
          rewrite (store_same a (pl + 1 - 1) top Hto) in Hm. exact Hm.
        - intros q Hq. rewrite K3 by lia. subst a1.
          apply (heap_store_outside a pl (S n) (S n) q top); lia. }
      assert (Htop : cell a2 (pl + n) = Some top).
      { rewrite K3 by lia. subst a1. unfold heap_store.
        replace (pl + S n - 1)%nat with (pl + n)%nat by lia.
        apply cell_store_same. lia. }
      destruct (IH a2) as (I1 & I2); try lia.
      * rewrite (local_length a a2 _ _ L2). lia.
      * exact K1.
      * intros i j x y Hij Hj Hjn Hx Hy.
        destruct (local_origin a a2 pl (pl + S n - 1) i x L2 ltac:(lia) Hx)
          as (i' & Hx' & Hi').
        destruct (Nat.eq_dec j (pl + n)) as [-> | Hne].
        -- rewrite Htop in Hy. injection Hy as <-.
           apply (heap_top a pl (S n) top Hh ltac:(lia) Hto (i' - pl + 1)%nat);
             [lia |].
           unfold heap_cell.
           now replace (pl + (i' - pl + 1) - 1)%nat with i' by lia.
        -- destruct L2 as [_ Ho]. rewrite Ho in Hy by lia.
           apply (Hd i' j x y); try assumption; lia.
      * split; [| exact I2].
        apply (local_trans a a2); [| exact I1].
        apply (local_wider a a2 pl (pl + S n - 1)); [lia | lia | exact L2].
Qed.

Lemma aheapsort_spec (a : list row) (pl m : nat) :
  (1 <= m)%nat -> (pl + m <= length a)%nat ->
  local a (aheapsort a pl m) pl (pl + m - 1) /\
  sorted_seg (aheapsort a pl m) pl (pl + m - 1).
Proof.
  intros Hm Hlen. unfold aheapsort.
  assert (Hdiv : (Nat.div2 m <= m < Nat.div2 m + Nat.div2 m + 2)%nat).
  { rewrite Nat.div2_div. pose proof (Nat.div_mod_eq m 2).
    pose proof (Nat.mod_upper_bound m 2 ltac:(lia)). lia. }
  destruct (heapify_spec pl m (Nat.div2 m) a) as (H1 & H2 & H3);
    [lia | assumption | |].
  { intros k c x y Hk Hc Hcn. lia. }
  set (a1 := heapify (Nat.div2 m) a pl m) in *.
  destruct (heap_drain_spec pl m m a1) as (D1 & D2); try lia.
  - rewrite <- (Permutation_length H2). assumption.
  - exact H1.
  - split; [| exact D2].
    apply (local_trans a a1); [| exact D1].
    split; [exact H2 |]. intros q Hq. apply H3. lia.
Qed.

(** ** The loop over the segments *)

(** Linear arithmetic on the bounds, without the quantified facts about
    the segments. *)
Ltac drop_quantified :=
  repeat match goal with
         | H : ?T |- _ =>
             lazymatch T with
             | forall x : nat, _ => clear H
             end
         end.

Ltac arith := drop_quantified; lia.

(** The array is split at both ends of a segment that is still to be
    sorted. *)
Lemma pending_ends (a : list row) (pl pr : nat) (rest : list (nat * nat)) :
  pending_ok a ((pl, pr) :: rest) -> split_at a pl /\ split_at a (pr + 1).
Proof.
  intros (Hb & (Hd & _) & Ho).
  assert (Hle : (pl <= pr < length a)%nat) by (apply Hb; now left).
  split; apply Ho; intros l r [Heq | Hin] Hin'.
  - injection Heq as <- <-. arith.
  - destruct (Hd l r Hin); arith.
  - injection Heq as <- <-. arith.
  - destruct (Hd l r Hin); arith.
Qed.

(** A segment that has been sorted leaves the segments still to be
    sorted. *)
Lemma segment_finished (a a' : list row) (pl pr : nat)
  (rest : list (nat * nat)) :
  pending_ok a ((pl, pr) :: rest) ->
  local a a' pl pr -> sorted_seg a' pl pr ->
  pending_ok a' rest.
Proof.
  intros Hp Hl Hs.
  destruct (pending_ends a pl pr rest Hp) as [E1 E2].
  destruct Hp as (Hb & (Hd & Hd') & Ho).
  assert (Hle : (pl <= pr)%nat) by (destruct (Hb pl pr); [now left | arith]).
  apply (local_split_at a a' pl pr pl Hl Hle ltac:(arith)) in E1.
  apply (local_split_at a a' pl pr (pr + 1) Hl Hle ltac:(arith)) in E2.
  split; [| split; [exact Hd' |]].
  - intros l r Hin. rewrite (local_length a a' pl pr Hl). apply Hb. now right.
  - intros b Hout.
    destruct (Nat.le_gt_cases b pl) as [H1 | H1];
      [| destruct (Nat.lt_ge_cases pr b) as [H2 | H2]].
    + apply (local_split_at a a' pl pr b Hl Hle); [arith |].
      apply Ho. intros l r [Heq | Hin]; [injection Heq as <- <-; arith |].
      now apply Hout.
    + apply (local_split_at a a' pl pr b Hl Hle); [arith |].
      apply Ho. intros l r [Heq | Hin]; [injection Heq as <- <-; arith |].
      now apply Hout.
    + intros i j x y Hij Hx Hy.
      destruct (Nat.lt_ge_cases i pl) as [Hi | Hi].
      * apply (E1 i j x y); [arith | assumption | assumption].
      * destruct (Nat.lt_ge_cases pr j) as [Hj | Hj].
        -- apply (E2 i j x y); [arith | assumption | assumption].
        -- apply (Hs i j x y); [arith | arith | assumption | assumption].
Qed.

(** A partition replaces its segment by the two parts around the
    pivot. *)
Lemma segment_partitioned (a a' : list row) (pl pr pi : nat) (vp : row)
  (rest : list (nat * nat)) :
  pending_ok a ((pl, pr) :: rest) ->
  local a a' pl pr -> (pl < pi < pr)%nat ->
  cell a' pi = Some vp ->
  (forall i x, (pl <= i < pi)%nat -> cell a' i = Some x -> date_le x vp) ->
  (forall j y, (pi < j <= pr)%nat -> cell a' j = Some y -> date_le vp y) ->
  pending_ok a' ((pl, pi - 1) :: (pi + 1, pr) :: rest)%nat.
Proof.
  intros Hp Hl Hpi Hv Hlo Hhi.
  destruct (pending_ends a pl pr rest Hp) as [E1 E2].
  destruct Hp as (Hb & (Hd & Hd') & Ho).
  assert (Hn : (pr < length a)%nat) by (destruct (Hb pl pr); [now left | arith]).
  apply (local_split_at a a' pl pr pl Hl ltac:(arith) ltac:(arith)) in E1.
  apply (local_split_at a a' pl pr (pr + 1) Hl ltac:(arith) ltac:(arith)) in E2.
  split; [| split].
  - intros l r Hin. rewrite (local_length a a' pl pr Hl).
    destruct Hin as [Heq | [Heq | Hin]].
    + injection Heq as <- <-. arith.
    + injection Heq as <- <-. arith.
    + apply Hb. now right.
  - cbn [disjoint_segs]. split; [| split; [| exact Hd']].
    + intros l r [Heq | Hin]; [injection Heq as <- <-; arith |].
      destruct (Hd l r Hin); arith.
    + intros l r Hin. destruct (Hd l r Hin); arith.
  - intros b Hout.
    assert (O1 := Hout pl (pi - 1)%nat ltac:(now left)).
    assert (O2 := Hout (pi + 1)%nat pr ltac:(right; now left)).
    destruct (Nat.le_gt_cases b pl) as [H1 | H1];
      [| destruct (Nat.lt_ge_cases pr b) as [H2 | H2]].
    + apply (local_split_at a a' pl pr b Hl); [arith | arith |].
      apply Ho. intros l r [Heq | Hin]; [injection Heq as <- <-; arith |].
      apply Hout. right. now right.
    + apply (local_split_at a a' pl pr b Hl); [arith | arith |].
      apply Ho. intros l r [Heq | Hin]; [injection Heq as <- <-; arith |].
      apply Hout. right. now right.
    + intros i j x y Hij Hx Hy.
      destruct (Nat.lt_ge_cases i pl) as [Hi | Hi].
      { apply (E1 i j x y); [arith | assumption | assumption]. }
      destruct (Nat.lt_ge_cases pr j) as [Hj | Hj].
      { apply (E2 i j x y); [arith | assumption | assumption]. }
      assert (Hxv : date_le x vp).
      { destruct (Nat.eq_dec i pi) as [-> | Hne].
        - rewrite Hv in Hx. injection Hx as <-. apply date_le_refl.
        - apply (Hlo i x); [arith | assumption]. }
      assert (Hvy : date_le vp y).
      { destruct (Nat.eq_dec j pi) as [-> | Hne].
        - rewrite Hv in Hy. injection Hy as <-. apply date_le_refl.
        - apply (Hhi j y); [arith | assumption]. }
      now apply (date_le_trans x vp y).
Qed.

Lemma pending_exchange (a : list row) (s1 s2 : nat * nat)
  (rest : list (nat * nat)) :
  pending_ok a (s1 :: s2 :: rest) -> pending_ok a (s2 :: s1 :: rest).
Proof.
  destruct s1 as [l1 r1], s2 as [l2 r2].
  intros (Hb & (Hd1 & Hd2 & Hd') & Ho). split; [| split].
  - intros l r Hin. apply Hb. destruct Hin as [H | [H | H]];
      [right; now left | now left | right; now right].
  - cbn [disjoint_segs]. split; [| split; [| exact Hd']].
    + intros l r [Heq | Hin]; [| now apply Hd2].
      injection Heq as <- <-. destruct (Hd1 l2 r2); [now left | arith | arith].
    + intros l r Hin. apply Hd1. now right.
  - intros b Hout. apply Ho. intros l r Hin. apply Hout.
    destruct Hin as [H | [H | H]];
      [right; now left | now left | right; now right].
Qed.

Lemma bounds_cons (l r : nat) (c : Z) (stack : list (nat * nat * Z)) :
  bounds ((l, r, c) :: stack) = (l, r) :: bounds stack.
Proof. reflexivity. Qed.

Lemma partition_loop_spec :
  forall fuel a pl pr cdepth stack a' pl' pr' stack',
    pending_ok a ((pl, pr) :: bounds stack) ->
    partition_loop fuel a pl pr cdepth stack = (a', pl', pr', stack') ->
    pending_ok a' ((pl', pr') :: bounds stack') /\
    Permutation a a' /\
    (cells_pending ((pl', pr') :: bounds stack') <=
     cells_pending ((pl, pr) :: bounds stack))%nat.
Proof.
  induction fuel as [| fuel IH];
    intros a pl pr cdepth stack a' pl' pr' stack' Hp Hr; cbn [partition_loop] in Hr.
  - injection Hr as <- <- <- <-. split; [assumption |]. split; [reflexivity | arith].
  - destruct (Nat.ltb_spec SMALL_QUICKSORT (pr - pl)) as [Hbig | Hsmall].
    + unfold SMALL_QUICKSORT in Hbig.
      destruct (partition a pl pr) as [a1 pi] eqn:Epart.
      assert (Hn : (pr < length a)%nat).
      { destruct Hp as (Hb & _). destruct (Hb pl pr); [now left | arith]. }
      destruct (partition_spec a pl pr a1 pi ltac:(arith) Hn Epart)
        as (L & Hpi & vp & Hv & Hlo & Hhi).
      pose proof (segment_partitioned a a1 pl pr pi vp (bounds stack)
                    Hp L Hpi Hv Hlo Hhi) as Hp1.
      destruct (Nat.ltb_spec (pi - pl) (pr - pi)) as [Hside | Hside].
      * destruct (IH a1 pl (pi - 1)%nat (cdepth - 1)%Z
                    (((pi + 1)%nat, pr, (cdepth - 1)%Z) :: stack)
                    a' pl' pr' stack' Hp1 Hr) as (I1 & I2 & I3).
        split; [assumption |]. split; [now rewrite (proj1 L) |].
        rewrite bounds_cons in I3. cbn [cells_pending] in *. arith.
      * apply pending_exchange in Hp1.
        destruct (IH a1 (pi + 1)%nat pr (cdepth - 1)%Z
                    ((pl, (pi - 1)%nat, (cdepth - 1)%Z) :: stack)
                    a' pl' pr' stack' Hp1 Hr) as (I1 & I2 & I3).
        split; [assumption |]. split; [now rewrite (proj1 L) |].
        rewrite bounds_cons in I3. cbn [cells_pending] in *. arith.
    + injection Hr as <- <- <- <-.
      split; [assumption |]. split; [reflexivity | arith].
Qed.

Lemma aquicksort_loop_spec :
  forall fuel a pl pr cdepth stack,
    pending_ok a ((pl, pr) :: bounds stack) ->
    (cells_pending ((pl, pr) :: bounds stack) <= fuel)%nat ->
    let a' := aquicksort_loop fuel a pl pr cdepth stack in
    Permutation a a' /\ forall b, split_at a' b.
Proof.
  induction fuel as [| fuel IH]; intros a pl pr cdepth stack Hp Hf.
  - cbn [cells_pending] in Hf. arith.
  - cbn [aquicksort_loop].
    assert (Hn : (pl <= pr < length a)%nat).
    { destruct Hp as (Hb & _). apply Hb. now left. }
    assert (Hstep : exists a1 stack1,
               (if (cdepth <? 0)%Z
                then (aheapsort a pl (pr - pl + 1), stack)
                else
                  let '(a', pl', pr', stack') :=
                    partition_loop (length a) a pl pr cdepth stack in
                  (insertion a' pl' pr', stack')) = (a1, stack1) /\
               pending_ok a1 (bounds stack1) /\ Permutation a a1 /\
               (cells_pending (bounds stack1) <= fuel)%nat).
    { destruct (cdepth <? 0)%Z.
      - exists (aheapsort a pl (pr - pl + 1)), stack.
        split; [reflexivity |].
        destruct (aheapsort_spec a pl (pr - pl + 1) ltac:(arith) ltac:(arith))
          as (L & S).
        replace (pl + (pr - pl + 1) - 1)%nat with pr in L, S by arith.
        split; [now apply (segment_finished a _ pl pr) |].
        split; [exact (proj1 L) |].
        cbn [cells_pending] in Hf. arith.
      - destruct (partition_loop (length a) a pl pr cdepth stack)
          as [[[a2 pl2] pr2] stack2] eqn:Eloop.
        destruct (partition_loop_spec _ _ _ _ _ _ _ _ _ _ Hp Eloop)
          as (P1 & P2 & P3).
        assert (Hn2 : (pl2 <= pr2 < length a2)%nat).
        { destruct P1 as (Hb & _). apply Hb. now left. }
        destruct (insertion_spec a2 pl2 pr2 ltac:(arith) ltac:(arith)) as (L & S).
        exists (insertion a2 pl2 pr2), stack2.
        split; [reflexivity |].
        split; [now apply (segment_finished a2 _ pl2 pr2) |].
        split; [now rewrite P2, <- (proj1 L) |].
        cbn [cells_pending] in Hf, P3. arith. }
    destruct Hstep as (a1 & stack1 & -> & Hp1 & Hperm & Hf1).
    destruct stack1 as [| [[pl1 pr1] c1] stack1].
    + split; [assumption |]. intros b.
      destruct Hp1 as (_ & _ & Ho). apply Ho. intros l r [].
    + destruct (IH a1 pl1 pr1 c1 stack1 Hp1 Hf1) as (I1 & I2).
      split; [now rewrite Hperm | assumption].
Qed.

(** The default sort returns the rows it is given, in ascending order
    of cycle date. *)
Lemma aquicksort_sorts (a : list row) :
  Permutation a (aquicksort a) /\ StronglySorted date_le (aquicksort a).
Proof.
  destruct a as [| x rest] eqn:E.
  { split; [reflexivity | constructor]. }
  rewrite <- E. assert (Hlen : (1 <= length a)%nat) by (subst a; simpl; arith).
  clear E. unfold aquicksort.
  destruct (aquicksort_loop_spec (S (length a)) a 0 (length a - 1)
              (Z.log2 (Z.of_nat (length a)) * 2) []) as (H1 & H2).
  - split; [| split].
    + intros l r [Heq | []]. injection Heq as <- <-. arith.
    + cbn [bounds map disjoint_segs]. split; [intros l r [] | exact I].
    + intros b Hout. intros i j x' y' Hij Hx Hy.
      apply cell_some_lt in Hy.
      exfalso. apply (Hout 0%nat (length a - 1)%nat); [now left | arith].
  - cbn [bounds map cells_pending]. arith.
  - split; [assumption | now apply split_at_sorted].
Qed.

Lemma aquicksort_contract : sort_values_contract aquicksort.
Proof.
  intros df. destruct (aquicksort_sorts df) as [Hp Hs].
  split; [assumption | now apply StronglySorted_Sorted].
Qed.

(** The amended C4: the table that [sort_values] returns with its
    default kind holds exactly the rows that the projection loop
    emitted, in ascending order of cycle date; when there are at most
    17 rows, rows of equal cycle date keep the order in which they were
    emitted. *)
Theorem project_sorted
  (np_sin : R -> R) (swings : list swing) (angles : list Z)
  (rows : list row) :
  compute_cycles np_sin swings angles = Some rows ->
  exists df,
    project np_sin aquicksort swings angles = Some df /\
    Permutation rows df /\
    Sorted date_le df /\
    ((length rows <= 17)%nat -> ties_in_emission_order rows df).
Proof.
  intros Hrows. unfold project. rewrite Hrows.
  eexists. split; [reflexivity |].
  destruct (aquicksort_sorts rows) as [Hp Hs].
  split; [exact Hp |]. split; [now apply StronglySorted_Sorted |].
  intros Hlen. rewrite aquicksort_short by assumption.
  destruct (fold_place rows [] (SSorted_nil date_le)) as (_ & _ & Hr).
  intros d. apply Hr.
Qed.

Lemma project_sorted_witness :
  exists df,
    project sin64 aquicksort [swing_1; swing_2_same] [90]%Z = Some df /\
    Permutation
      [ {| Swing := "Swing 1"; Price := 210; Scaled_Price := 210; Divisor := 1;
           Angle := 90; Days := 210; Cycle_Date := ymd2ord 2025 11 3 |};
        {| Swing := "Swing 2"; Price := 210; Scaled_Price := 210; Divisor := 1;
           Angle := 90; Days := 210; Cycle_Date := ymd2ord 2025 11 3 |} ]
      df /\
    Sorted date_le df /\
    ((length
        [ {| Swing := "Swing 1"; Price := 210; Scaled_Price := 210;
             Divisor := 1; Angle := 90; Days := 210;
             Cycle_Date := ymd2ord 2025 11 3 |};
          {| Swing := "Swing 2"; Price := 210; Scaled_Price := 210;
             Divisor := 1; Angle := 90; Days := 210;
             Cycle_Date := ymd2ord 2025 11 3 |} ] <= 17)%nat ->
     ties_in_emission_order
       [ {| Swing := "Swing 1"; Price := 210; Scaled_Price := 210; Divisor := 1;
            Angle := 90; Days := 210; Cycle_Date := ymd2ord 2025 11 3 |};
         {| Swing := "Swing 2"; Price := 210; Scaled_Price := 210; Divisor := 1;
            Angle := 90; Days := 210; Cycle_Date := ymd2ord 2025 11 3 |} ]
       df).
Proof.
  apply (project_sorted sin64 [swing_1; swing_2_same] [90]%Z).
  exact (compute_cycles_same_date sin64 sin64_contract).
Defined.

(** The row of a swing whose price is 0. *)
Lemma projection_zero_price np_sin s a :
  projection_of np_sin s 0 a =
  {| Swing := name s; Price := 0; Scaled_Price := 0; Divisor := 1;
     Angle := IZR a; Days := 0; Cycle_Date := toordinal (date s) |}.
Proof.
  unfold projection_of. rewrite (zero_price_offset np_sin a), Z.add_0_r.
  rewrite scale_price_0. cbn [fst snd]. f_equal.
  unfold py_round_ndigits. rewrite Rmult_0_l, py_round_0. simpl. lra.
Qed.

Lemma compute_cycles_three_zero np_sin :
  compute_cycles np_sin three_zero_swings default_angles =
  Some
    (flat_map
       (fun swing_name =>
          map (fun a =>
                 {| Swing := swing_name; Price := 0; Scaled_Price := 0;
                    Divisor := 1; Angle := IZR a; Days := 0;
                    Cycle_Date := ymd2ord 2025 4 7 |})
            default_angles)
       ["Swing 1"; "Swing 2"; "Swing 3"]%string).
Proof.
  rewrite compute_cycles_emission. unfold emission, three_zero_swings.
  unfold form_swings. cbn [app flat_map price].
  rewrite !(map_ext _ _ (projection_zero_price np_sin _)).
  reflexivity.
Qed.

(** C4 as the specification words it does not hold: with the three
    prices left at 0 on one date and the default selection of angles,
    the 21 rows all fall on that date; the default sort returns them in
    another order than they were emitted in (its second row is the row
    of Swing 3 that was emitted as the nineteenth). *)
Lemma ties_not_in_emission_order :
  exists rows df,
    compute_cycles sin64 three_zero_swings default_angles = Some rows /\
    project sin64 aquicksort three_zero_swings default_angles = Some df /\
    length rows = 21%nat /\
    (forall r, In r rows -> Cycle_Date r = ymd2ord 2025 4 7) /\
    option_map Swing (nth_error rows 1) = Some "Swing 1"%string /\
    option_map Swing (nth_error df 1) = Some "Swing 3"%string /\
    nth_error df 1 = nth_error rows 18 /\
    ~ ties_in_emission_order rows df.
Proof.
  do 2 eexists.
  split; [apply compute_cycles_three_zero |].
  split; [unfold project; rewrite compute_cycles_three_zero; reflexivity |].
  split; [reflexivity |]. split.
  - intros r Hr. apply in_flat_map in Hr as (n & _ & Hr).
    apply in_map_iff in Hr as (a & <- & _). reflexivity.
  - split; [reflexivity |]. split; [vm_compute; reflexivity |].
    split; [vm_compute; reflexivity |].
    intros H. specialize (H (ymd2ord 2025 4 7)).
    apply (f_equal (fun l => option_map Swing (nth_error l 1))) in H.
    vm_compute in H. discriminate H.
Qed.
